(** * ficsitApp: the registry client of SatisfactoryModManagerAPI

    A shallow embedding of [src/ficsitApp.ts]: the temporary mod overlay,
    the query executor, the time-boxed cache and the registry accessors,
    together with the properties the specification states about them.

    Module-level mutable state of the TypeScript file ([useTempMods],
    [tempMods], [cachedFetch]), the JavaScript arrays that are shared by
    reference, the clock behind [Date.now()] and the remote registry are
    the fields of one record, [World]; functions that can throw or await
    live in the error-and-state monad [M]. *)

From Stdlib Require Import ZArith Ascii String List Bool Lia Sorted Permutation.
From stdpp Require Import base option list gmap strings.
Import ListNotations.

Local Open Scope string_scope.
Local Open Scope Z_scope.
Local Open Scope list_scope.

(** ** External collaborators *)

(** The two functions imported from the npm package [semver]. [compare]
    returns -1, 0 or 1; [satisfies] tests a version against a range. Both
    are taken on version strings that are valid semantic versions, which
    the data model guarantees for every [version] field. *)
Class Semver := {
  compare : string -> string -> Z;
  satisfies : string -> string -> bool
}.

(** [compare] is a total preorder (what semantic-version precedence is). *)
Class SemverOrder `{Semver} : Prop := {
  compare_antisym : forall a b, compare b a = - compare a b;
  compare_trans : forall a b c,
    0 <= compare a b -> 0 <= compare b c -> 0 <= compare a c
}.

(** The constants imported from [./smlHandler] and [./bootstrapperHandler],
    whose declarations are not part of the sources at hand. *)
Class Handlers := {
  minSMLVersion : string;
  SMLModID : string;
  BootstrapperModID : string
}.

(** ** Data model *)

Definition loc := nat.

Inductive Stability := alpha | beta | release.

(** A date member of a response: [null], the text the registry sent, or
    the [Date] object built from that text by [new Date(text)]. *)
Inductive DateField :=
| DateNull
| DateText (s : string)
| DateObject (s : string).

Record FicsitAppUser := {
  username : string;
  avatar : string
}.

Record FicsitAppAuthor := {
  author_mod_id : string;
  user : FicsitAppUser;
  role : string
}.

Record FicsitAppVersion := {
  mod_id : string;
  version : string;
  sml_version : string;
  changelog : string;
  downloads : string;
  stability : Stability;
  link : string
}.

(** [FicsitAppMod]. The [versions] member is an array: in a response body
    it is the list of its elements ([WireMod]); once the body has been
    parsed it is a reference into the store of arrays ([FicsitAppMod]),
    because [addTempModVersion], [removeTempModVersion] and
    [getModLatestVersion] update such arrays in place. *)
Record Mod (V : Type) := {
  id : string;
  name : string;
  short_description : string;
  full_description : string;
  logo : string;
  source_url : string;
  views : Z;
  mod_downloads : Z;
  hotness : Z;
  popularity : Z;
  last_version_date : DateField;
  authors : list FicsitAppAuthor;
  versions : V
}.
Arguments id {V} _.
Arguments name {V} _.
Arguments short_description {V} _.
Arguments full_description {V} _.
Arguments logo {V} _.
Arguments source_url {V} _.
Arguments views {V} _.
Arguments mod_downloads {V} _.
Arguments hotness {V} _.
Arguments popularity {V} _.
Arguments last_version_date {V} _.
Arguments authors {V} _.
Arguments versions {V} _.

Definition WireMod := Mod (list FicsitAppVersion).
Definition FicsitAppMod := Mod loc.

Record FicsitAppSMLVersion := {
  sml_id : string;
  sml_release : string;           (* the [version] member *)
  sml_satisfactory_version : Z;
  sml_stability : Stability;
  sml_link : string;
  sml_changelog : string;
  sml_date : DateField;
  bootstrap_version : string
}.

Record FicsitAppBootstrapperVersion := {
  bs_id : string;
  bs_release : string;            (* the [version] member *)
  bs_satisfactory_version : Z;
  bs_stability : Stability;
  bs_link : string;
  bs_changelog : string;
  bs_date : DateField
}.

(** What a cache entry holds and what the accessors hand back: the
    [data: any] of [FicsitAppFetch]. Arrays of versions are references. *)
Inductive Value :=
| VUndefined
| VString (s : string)
| VMod (m : FicsitAppMod)
| VMods (ms : list FicsitAppMod)
| VVersions (l : loc)
| VSMLVersions (l : loc)
| VBootstrapperVersions (l : loc).

Record FicsitAppFetch := {
  time : Z;
  data : Value
}.

Inductive Exn :=
| Error (message : string)
| ModNotFoundError (message : string)
| TypeError.

(** ** The remote registry *)

(** One constructor per GraphQL document of the file, carrying the
    variables of the query; the index is the shape of the [data] member
    the schema gives to the answer. [getMod] is nullable, and so is the
    [version] member asked for by [getModDownloadLink]. *)
Inductive Request : Type -> Type :=
| QueryModDownloadLink (modID ver : string) : Request (option (option string))
| QueryMods : Request (list WireMod)
| QueryMod (modID : string) : Request (option WireMod)
| QueryModVersions (modID : string) : Request (option (list FicsitAppVersion))
| QuerySMLVersions : Request (list FicsitAppSMLVersion)
| QueryBootstrapVersions : Request (list FicsitAppBootstrapperVersion).

(** How one POST ends. *)
Inductive Transport (A : Type) :=
| Rejected                (* [request] rejects: no connection, bad status *)
| Malformed               (* the body is not JSON: [JSON.parse] throws *)
| JsonNull                (* the body is the JSON [null]: reading [.data] throws *)
| NoData                  (* valid JSON without a usable [data] member *)
| Data (d : A).           (* valid JSON, [data] of the schema's shape *)
Arguments Rejected {A}.
Arguments Malformed {A}.
Arguments JsonNull {A}.
Arguments NoData {A}.
Arguments Data {A} d.

Record Reply (A : Type) := {
  outcome : Transport A;
  elapsed : Z               (* what the round trip adds to the clock *)
}.
Arguments outcome {A} _.
Arguments elapsed {A} _.

(** What [fiscitApiQuery] resolves to: the object built in its [catch],
    [undefined], or the [data] member of the parsed body. *)
Inductive ApiResult (A : Type) :=
| ResErrors (errors : Exn)
| ResUndefined
| ResData (d : A).
Arguments ResErrors {A} errors.
Arguments ResUndefined {A}.
Arguments ResData {A} d.

(** ** The world *)

Record World := {
  useTempMods : bool;
  tempMods : list FicsitAppMod;
  cachedFetch : gmap string FicsitAppFetch;
  versionArrays : gmap loc (list FicsitAppVersion);
  smlArrays : gmap loc (list FicsitAppSMLVersion);
  bootstrapperArrays : gmap loc (list FicsitAppBootstrapperVersion);
  nextLoc : loc;
  now : Z;                                        (* [Date.now()] *)
  sent : nat;                                     (* requests issued so far *)
  remote : nat -> forall A, Request A -> Reply A; (* the answer to the n-th request *)
  warnings : list string                          (* what [warn] printed *)
}.

Definition set_useTempMods (b : bool) (w : World) : World :=
  {| useTempMods := b; tempMods := tempMods w; cachedFetch := cachedFetch w;
     versionArrays := versionArrays w; smlArrays := smlArrays w;
     bootstrapperArrays := bootstrapperArrays w; nextLoc := nextLoc w;
     now := now w; sent := sent w; remote := remote w; warnings := warnings w |}.

Definition set_tempMods (ms : list FicsitAppMod) (w : World) : World :=
  {| useTempMods := useTempMods w; tempMods := ms; cachedFetch := cachedFetch w;
     versionArrays := versionArrays w; smlArrays := smlArrays w;
     bootstrapperArrays := bootstrapperArrays w; nextLoc := nextLoc w;
     now := now w; sent := sent w; remote := remote w; warnings := warnings w |}.

Definition set_cachedFetch (c : gmap string FicsitAppFetch) (w : World) : World :=
  {| useTempMods := useTempMods w; tempMods := tempMods w; cachedFetch := c;
     versionArrays := versionArrays w; smlArrays := smlArrays w;
     bootstrapperArrays := bootstrapperArrays w; nextLoc := nextLoc w;
     now := now w; sent := sent w; remote := remote w; warnings := warnings w |}.

Definition set_versionArrays (h : gmap loc (list FicsitAppVersion)) (w : World) : World :=
  {| useTempMods := useTempMods w; tempMods := tempMods w; cachedFetch := cachedFetch w;
     versionArrays := h; smlArrays := smlArrays w;
     bootstrapperArrays := bootstrapperArrays w; nextLoc := nextLoc w;
     now := now w; sent := sent w; remote := remote w; warnings := warnings w |}.

Definition set_smlArrays (h : gmap loc (list FicsitAppSMLVersion)) (w : World) : World :=
  {| useTempMods := useTempMods w; tempMods := tempMods w; cachedFetch := cachedFetch w;
     versionArrays := versionArrays w; smlArrays := h;
     bootstrapperArrays := bootstrapperArrays w; nextLoc := nextLoc w;
     now := now w; sent := sent w; remote := remote w; warnings := warnings w |}.

Definition set_bootstrapperArrays
    (h : gmap loc (list FicsitAppBootstrapperVersion)) (w : World) : World :=
  {| useTempMods := useTempMods w; tempMods := tempMods w; cachedFetch := cachedFetch w;
     versionArrays := versionArrays w; smlArrays := smlArrays w;
     bootstrapperArrays := h; nextLoc := nextLoc w;
     now := now w; sent := sent w; remote := remote w; warnings := warnings w |}.

Definition set_nextLoc (l : loc) (w : World) : World :=
  {| useTempMods := useTempMods w; tempMods := tempMods w; cachedFetch := cachedFetch w;
     versionArrays := versionArrays w; smlArrays := smlArrays w;
     bootstrapperArrays := bootstrapperArrays w; nextLoc := l;
     now := now w; sent := sent w; remote := remote w; warnings := warnings w |}.

Definition set_now (t : Z) (w : World) : World :=
  {| useTempMods := useTempMods w; tempMods := tempMods w; cachedFetch := cachedFetch w;
     versionArrays := versionArrays w; smlArrays := smlArrays w;
     bootstrapperArrays := bootstrapperArrays w; nextLoc := nextLoc w;
     now := t; sent := sent w; remote := remote w; warnings := warnings w |}.

Definition set_sent (n : nat) (w : World) : World :=
  {| useTempMods := useTempMods w; tempMods := tempMods w; cachedFetch := cachedFetch w;
     versionArrays := versionArrays w; smlArrays := smlArrays w;
     bootstrapperArrays := bootstrapperArrays w; nextLoc := nextLoc w;
     now := now w; sent := n; remote := remote w; warnings := warnings w |}.

Definition set_warnings (l : list string) (w : World) : World :=
  {| useTempMods := useTempMods w; tempMods := tempMods w; cachedFetch := cachedFetch w;
     versionArrays := versionArrays w; smlArrays := smlArrays w;
     bootstrapperArrays := bootstrapperArrays w; nextLoc := nextLoc w;
     now := now w; sent := sent w; remote := remote w; warnings := l |}.

(** The state of a freshly loaded module, in front of a given registry. *)
Definition init (r : nat -> forall A, Request A -> Reply A) (t : Z) : World :=
  {| useTempMods := false; tempMods := []; cachedFetch := ∅;
     versionArrays := ∅; smlArrays := ∅; bootstrapperArrays := ∅;
     nextLoc := 0%nat; now := t; sent := 0%nat; remote := r; warnings := [] |}.

(** ** The monad of calls that may throw *)

Inductive Result (A : Type) :=
| Ok (a : A)
| Throw (e : Exn).
Arguments Ok {A} a.
Arguments Throw {A} e.

Definition M (A : Type) : Type := World -> Result A * World.

Definition ret {A} (a : A) : M A := fun w => (Ok a, w).
Definition throw {A} (e : Exn) : M A := fun w => (Throw e, w).
Definition bind {A B} (c : M A) (k : A -> M B) : M B :=
  fun w => match c w with
           | (Ok a, w') => k a w'
           | (Throw e, w') => (Throw e, w')
           end.
Definition gets {A} (f : World -> A) : M A := fun w => (Ok (f w), w).
Definition modify (f : World -> World) : M unit := fun w => (Ok tt, f w).

Notation "'let*' x ':=' c 'in' k" := (bind c (fun x => k))
  (at level 10, x name, c at level 100, k at level 200).

(** ** JavaScript arrays *)

(** [Array.prototype.sort(comparefn)]: the elements are rearranged so that
    [comparefn a b <= 0] for every [a] placed before [b], and elements the
    comparator holds equal keep their order (the sort is stable). A stable
    insertion sort computes that arrangement. *)
Fixpoint sort_insert {A} (comparefn : A -> A -> Z) (x : A) (l : list A) : list A :=
  match l with
  | [] => [x]
  | y :: l' => if 0 <? comparefn x y then y :: sort_insert comparefn x l'
               else x :: y :: l'
  end.

Definition sort {A} (comparefn : A -> A -> Z) (l : list A) : list A :=
  foldr (sort_insert comparefn) [] l.

(** Modelled from the spec: [removeArrayElementWhere] of [./utils], which is
    not part of the sources at hand. The overlay contract says that
    [removeMod] deletes the overlay mod with that identifier and
    [removeVersion] deletes the matching version entry: the elements for
    which the condition holds leave the array, the others keep their order. *)
Definition removeArrayElementWhere {A} (condition : A -> bool) (array : list A) : list A :=
  List.filter (fun element => negb (condition element)) array.

(** Reading the array behind a reference. *)
Definition versionsAt (l : loc) (w : World) : list FicsitAppVersion :=
  default [] (versionArrays w !! l).
Definition smlVersionsAt (l : loc) (w : World) : list FicsitAppSMLVersion :=
  default [] (smlArrays w !! l).
Definition bootstrapperVersionsAt (l : loc) (w : World)
  : list FicsitAppBootstrapperVersion :=
  default [] (bootstrapperArrays w !! l).

(** A new array, as [JSON.parse] or [Array.prototype.filter] creates one. *)
Definition newVersions (vs : list FicsitAppVersion) : M loc :=
  fun w => (Ok (nextLoc w),
            set_nextLoc (S (nextLoc w))
              (set_versionArrays (<[nextLoc w := vs]> (versionArrays w)) w)).
Definition newSMLVersions (vs : list FicsitAppSMLVersion) : M loc :=
  fun w => (Ok (nextLoc w),
            set_nextLoc (S (nextLoc w))
              (set_smlArrays (<[nextLoc w := vs]> (smlArrays w)) w)).
Definition newBootstrapperVersions (vs : list FicsitAppBootstrapperVersion) : M loc :=
  fun w => (Ok (nextLoc w),
            set_nextLoc (S (nextLoc w))
              (set_bootstrapperArrays (<[nextLoc w := vs]> (bootstrapperArrays w)) w)).

(** The parsed form of a mod of a response body: the same members, its
    [versions] array put in the store. *)
Definition withVersions {V W} (vs : W) (m : Mod V) : Mod W :=
  {| id := id m; name := name m; short_description := short_description m;
     full_description := full_description m; logo := logo m;
     source_url := source_url m; views := views m;
     mod_downloads := mod_downloads m; hotness := hotness m;
     popularity := popularity m; last_version_date := last_version_date m;
     authors := authors m; versions := vs |}.

Definition parseMod (m : WireMod) : M FicsitAppMod :=
  let* l := newVersions (versions m) in
  ret (withVersions l m).

Fixpoint parseMods (ms : list WireMod) : M (list FicsitAppMod) :=
  match ms with
  | [] => ret []
  | m :: ms' =>
      let* m' := parseMod m in
      let* rest := parseMods ms' in
      ret (m' :: rest)
  end.

(** The mods [parseMods] builds when the next free reference is [l]. *)
Fixpoint parsedFrom (l : loc) (ms : list WireMod) : list FicsitAppMod :=
  match ms with
  | [] => []
  | m :: ms' => withVersions l m :: parsedFrom (S l) ms'
  end.

(** [x ? new Date(x) : null] on a date member. *)
Definition toDate (d : DateField) : DateField :=
  match d with
  | DateNull => DateNull
  | DateText "" => DateNull
  | DateText s => DateObject s
  | DateObject s => DateObject s
  end.

Definition with_last_version_date {V} (d : DateField) (m : Mod V) : Mod V :=
  {| id := id m; name := name m; short_description := short_description m;
     full_description := full_description m; logo := logo m;
     source_url := source_url m; views := views m;
     mod_downloads := mod_downloads m; hotness := hotness m;
     popularity := popularity m; last_version_date := d;
     authors := authors m; versions := versions m |}.

Definition with_sml_date (d : DateField) (v : FicsitAppSMLVersion) : FicsitAppSMLVersion :=
  {| sml_id := sml_id v; sml_release := sml_release v;
     sml_satisfactory_version := sml_satisfactory_version v;
     sml_stability := sml_stability v; sml_link := sml_link v;
     sml_changelog := sml_changelog v; sml_date := d;
     bootstrap_version := bootstrap_version v |}.

Definition with_bs_date (d : DateField) (v : FicsitAppBootstrapperVersion)
  : FicsitAppBootstrapperVersion :=
  {| bs_id := bs_id v; bs_release := bs_release v;
     bs_satisfactory_version := bs_satisfactory_version v;
     bs_stability := bs_stability v; bs_link := bs_link v;
     bs_changelog := bs_changelog v; bs_date := d |}.

(** ** The temporary mod overlay *)

Definition API_URL : string := "https://api.ficsit.app".

Definition warn (msg : string) (w : World) : World :=
  set_warnings (warnings w ++ [msg]) w.

Definition setUseTempMods (enable : bool) (w : World) : World :=
  let w := set_useTempMods enable w in
  if useTempMods w
  then warn "Enabling temporary mods. This feature should be used for debugging purposes only!" w
  else w.

Definition getUseTempMods (use : bool) (w : World) : World :=
  set_useTempMods use w.

Definition addTempMod (mod_ : FicsitAppMod) (w : World) : World :=
  if useTempMods w then set_tempMods (tempMods w ++ [mod_]) w
  else warn "Temporary mods are only available in debug mode" w.

Definition addTempModVersion (ver : FicsitAppVersion) (w : World) : World :=
  if useTempMods w then
    match List.find (fun mod_ => String.eqb (id mod_) (mod_id ver)) (tempMods w) with
    | Some tempMod =>
        set_versionArrays
          (<[versions tempMod := versionsAt (versions tempMod) w ++ [ver]]> (versionArrays w)) w
    | None => w
    end
  else warn "Temporary mods are only available in debug mode" w.

Definition removeTempMod (modID : string) (w : World) : World :=
  if useTempMods w then
    set_tempMods (removeArrayElementWhere (fun mod_ => String.eqb (id mod_) modID) (tempMods w)) w
  else warn "Temporary mods are only available in debug mode" w.

Definition removeTempModVersion (modID ver : string) (w : World) : World :=
  if useTempMods w then
    match List.find (fun tempMod => String.eqb (id tempMod) modID) (tempMods w) with
    | Some mod_ =>
        set_versionArrays
          (<[versions mod_ :=
               removeArrayElementWhere (fun modVersion => String.eqb (version modVersion) ver)
                 (versionsAt (versions mod_) w)]> (versionArrays w)) w
    | None => w
    end
  else warn "Temporary mods are only available in debug mode" w.

(** ** The query executor *)

(** The [try] block issues the request and returns the [data] member of the
    parsed body; whatever is thrown inside it is caught and replaced by the
    [errors] object. *)
Definition fiscitApiQuery {A} (query : Request A) : M (ApiResult A) :=
  fun w =>
    let reply := remote w (sent w) A query in
    let w' := set_now (now w + elapsed reply) (set_sent (S (sent w)) w) in
    match outcome reply with
    | Data d => (Ok (ResData d), w')
    | NoData => (Ok ResUndefined, w')
    | Rejected | Malformed | JsonNull =>
        (Ok (ResErrors (Error "Network error. Please try again later.")), w')
    end.

(** The outcomes on which the [try] block throws. *)
Definition transportFailed {A} (t : Transport A) : bool :=
  match t with
  | Rejected | Malformed | JsonNull => true
  | NoData | Data _ => false
  end.

(** ** The cache *)

Definition fetchCooldown : Z := 5 * 60 * 1000.

Definition cooldownPassed (action : string) (w : World) : bool :=
  match cachedFetch w !! action with
  | Some entry => fetchCooldown <? now w - time entry
  | None => true
  end.

Definition getCache (action : string) (w : World) : Value :=
  match cachedFetch w !! action with
  | Some entry => data entry
  | None => VUndefined
  end.

Definition setCache (action : string) (d : Value) (w : World) : World :=
  set_cachedFetch (<[action := {| time := now w; data := d |}]> (cachedFetch w)) w.

(** ** The registry client *)

Definition hasTempMod (modID : string) (w : World) : bool :=
  existsb (fun mod_ => String.eqb (id mod_) modID) (tempMods w).

Definition findTempMod (modID : string) (w : World) : option FicsitAppMod :=
  List.find (fun mod_ => String.eqb (id mod_) modID) (tempMods w).

Definition getModDownloadLink (modID ver : string) : M Value :=
  let requestID := "getModDownloadLink_" +:+ modID +:+ "_" +:+ ver in
  let* passed := gets (cooldownPassed requestID) in
  if passed then
    let* res := fiscitApiQuery (QueryModDownloadLink modID ver) in
    match res with
    | ResErrors errors => throw errors
    | ResUndefined => throw TypeError
    | ResData (Some (Some link)) =>
        let* _ := modify (setCache requestID (VString (API_URL +:+ link))) in
        gets (getCache requestID)
    | ResData _ =>
        let* isTemp := gets (hasTempMod modID) in
        if isTemp
        then throw (ModNotFoundError
                      (modID +:+ "@" +:+ ver +:+ " is a temporary mod. No download link available"))
        else throw (ModNotFoundError (modID +:+ "@" +:+ ver +:+ " not found"))
    end
  else gets (getCache requestID).

Definition getAvailableMods : M Value :=
  let requestID := "getAvailableMods" in
  let* passed := gets (cooldownPassed requestID) in
  if passed then
    let* res := fiscitApiQuery QueryMods in
    match res with
    | ResErrors errors => throw errors
    | ResUndefined => throw TypeError
    | ResData mods =>
        let* resGetMods := parseMods mods in
        let resGetMods :=
          map (fun m => with_last_version_date (toDate (last_version_date m)) m) resGetMods in
        let* useTemp := gets useTempMods in
        let* temp := gets tempMods in
        let resGetMods := if useTemp then resGetMods ++ temp else resGetMods in
        let* _ := modify (setCache requestID (VMods resGetMods)) in
        gets (getCache requestID)
    end
  else gets (getCache requestID).

Definition getMod (modID : string) : M Value :=
  let requestID := "getMod_" +:+ modID in
  let* passed := gets (cooldownPassed requestID) in
  if passed then
    let* res := fiscitApiQuery (QueryMod modID) in
    match res with
    | ResErrors errors => throw errors
    | ResUndefined => throw TypeError
    | ResData None =>
        let* useTemp := gets useTempMods in
        let* found := gets (findTempMod modID) in
        match useTemp, found with
        | true, Some tempMod => ret (VMod tempMod)
        | _, _ => throw (ModNotFoundError ("Mod " +:+ modID +:+ " not found"))
        end
    | ResData (Some resGetMod) =>
        let* resGetMod := parseMod resGetMod in
        let resGetMod :=
          with_last_version_date (toDate (last_version_date resGetMod)) resGetMod in
        let* _ := modify (setCache requestID (VMod resGetMod)) in
        gets (getCache requestID)
    end
  else gets (getCache requestID).

Definition getModVersions (modID : string) : M Value :=
  let requestID := "getModVersions_" +:+ modID in
  let* passed := gets (cooldownPassed requestID) in
  if passed then
    let* res := fiscitApiQuery (QueryModVersions modID) in
    match res with
    | ResErrors errors => throw errors
    | ResUndefined => throw TypeError
    | ResData (Some vs) =>
        let* l := newVersions vs in
        let* _ := modify (setCache requestID (VVersions l)) in
        gets (getCache requestID)
    | ResData None =>
        let* useTemp := gets useTempMods in
        let* found := gets (findTempMod modID) in
        match useTemp, found with
        | true, Some tempMod => ret (VVersions (versions tempMod))
        | _, _ => throw (ModNotFoundError ("Mod " +:+ modID +:+ " not found"))
        end
    end
  else gets (getCache requestID).

Definition getAvailableBootstrapperVersions : M Value :=
  let requestID := "getBootstrapperVersions" in
  let* passed := gets (cooldownPassed requestID) in
  if passed then
    let* res := fiscitApiQuery QueryBootstrapVersions in
    match res with
    | ResErrors errors => throw errors
    | ResUndefined => throw TypeError
    | ResData bootstrap_versions =>
        let resGetBootstrapVersions :=
          map (fun v => with_bs_date (toDate (bs_date v)) v) bootstrap_versions in
        let* l := newBootstrapperVersions resGetBootstrapVersions in
        let* _ := modify (setCache requestID (VBootstrapperVersions l)) in
        gets (getCache requestID)
    end
  else gets (getCache requestID).

Definition getBootstrapperVersionInfo (ver : string)
  : M (option FicsitAppBootstrapperVersion) :=
  let* vs := getAvailableBootstrapperVersions in
  match vs with
  | VBootstrapperVersions l =>
      gets (fun w => List.find (fun bootstrapperVersion =>
                                  String.eqb (bs_release bootstrapperVersion) ver)
                       (bootstrapperVersionsAt l w))
  | _ => throw TypeError
  end.

Section WithSemver.
Context `{Semver} `{Handlers}.

(** Modelled from the spec: [versionSatisfiesAll] of [./utils], which is not
    part of the sources at hand. Constraint satisfaction is
    semantic-version range matching, and the constraints of a set must
    all hold at once. *)
Definition versionSatisfiesAll (ver : string) (versionConstraints : list string) : bool :=
  forallb (fun versionConstraint => satisfies ver versionConstraint) versionConstraints.


(** The comparator [(a, b) => -compare(a.version, b.version)]. *)
Definition newestFirst {A} (release_of : A -> string) (a b : A) : Z :=
  - compare (release_of a) (release_of b).

(** [versions.sort(...)] on the array behind a reference. *)
Definition sortVersionsAt (l : loc) (w : World) : World :=
  set_versionArrays
    (<[l := sort (newestFirst version) (versionsAt l w)]> (versionArrays w)) w.
Definition sortSMLVersionsAt (l : loc) (w : World) : World :=
  set_smlArrays
    (<[l := sort (newestFirst sml_release) (smlVersionsAt l w)]> (smlArrays w)) w.
Definition sortBootstrapperVersionsAt (l : loc) (w : World) : World :=
  set_bootstrapperArrays
    (<[l := sort (newestFirst bs_release) (bootstrapperVersionsAt l w)]>
       (bootstrapperArrays w)) w.

Definition getModLatestVersion (modID : string) : M (option FicsitAppVersion) :=
  let* vs := getModVersions modID in
  match vs with
  | VVersions l =>
      let* _ := modify (sortVersionsAt l) in
      gets (fun w => head (versionsAt l w))
  | _ => throw TypeError
  end.

(** The body of the [forEach] callback, on the pair of the two variables
    it assigns. *)
Definition matchStep (versionConstraints : list string)
    (st : string * bool) (modVersion : FicsitAppVersion) : string * bool :=
  let '(finalVersion, found) := st in
  if negb found && versionSatisfiesAll (version modVersion) versionConstraints
  then (version modVersion, true)
  else (finalVersion, found).

Definition findVersionMatchingAll (modID : string) (versionConstraints : list string)
  : M (option string) :=
  let* modInfo := getMod modID in
  match modInfo with
  | VMod modInfo =>
      let* vs := gets (versionsAt (versions modInfo)) in
      let '(finalVersion, found) :=
        fold_left (matchStep versionConstraints) vs ("", false) in
      ret (if found then Some finalVersion else None)
  | _ => throw TypeError
  end.

Definition getAvailableSMLVersions : M Value :=
  let requestID := "getSMLVersions" in
  let* passed := gets (cooldownPassed requestID) in
  if passed then
    let* res := fiscitApiQuery QuerySMLVersions in
    match res with
    | ResErrors errors => throw errors
    | ResUndefined => throw TypeError
    | ResData sml_versions =>
        let smlVersionsCompatible :=
          List.filter (fun v => satisfies (sml_release v) ">=2.0.0") sml_versions in
        let smlVersionsCompatible :=
          map (fun v => with_sml_date (toDate (sml_date v)) v) smlVersionsCompatible in
        let* l := newSMLVersions smlVersionsCompatible in
        let* _ := modify (setCache requestID (VSMLVersions l)) in
        gets (getCache requestID)
    end
  else gets (getCache requestID).

Definition getSMLVersionInfo (ver : string) : M (option FicsitAppSMLVersion) :=
  let* vs := getAvailableSMLVersions in
  match vs with
  | VSMLVersions l =>
      gets (fun w => List.find (fun smlVersion => String.eqb (sml_release smlVersion) ver)
                       (smlVersionsAt l w))
  | _ => throw TypeError
  end.

Definition getLatestSMLVersion : M (option FicsitAppSMLVersion) :=
  let* vs := getAvailableSMLVersions in
  match vs with
  | VSMLVersions l =>
      let* _ := modify (sortSMLVersionsAt l) in
      gets (fun w => head (smlVersionsAt l w))
  | _ => throw TypeError
  end.

Definition getLatestBootstrapperVersion : M (option FicsitAppBootstrapperVersion) :=
  let* vs := getAvailableBootstrapperVersions in
  match vs with
  | VBootstrapperVersions l =>
      let* _ := modify (sortBootstrapperVersionsAt l) in
      gets (fun w => head (bootstrapperVersionsAt l w))
  | _ => throw TypeError
  end.

Definition findAllVersionsMatchingAll (modID : string) (versionConstraints : list string)
  : M (list string) :=
  if String.eqb modID SMLModID then
    let* smlVersions := getAvailableSMLVersions in
    match smlVersions with
    | VSMLVersions l =>
        let* smlVersions := gets (smlVersionsAt l) in
        ret (map sml_release
               (List.filter
                  (fun smlVersion =>
                     versionSatisfiesAll (sml_release smlVersion) versionConstraints)
                  (List.filter
                     (fun smlVersion =>
                        satisfies (sml_release smlVersion) (">=" +:+ minSMLVersion))
                     smlVersions)))
    | _ => throw TypeError
    end
  else if String.eqb modID BootstrapperModID then
    let* bootstrapperVersions := getAvailableBootstrapperVersions in
    match bootstrapperVersions with
    | VBootstrapperVersions l =>
        let* bootstrapperVersions := gets (bootstrapperVersionsAt l) in
        ret (map bs_release
               (List.filter
                  (fun bootstrapperVersion =>
                     versionSatisfiesAll (bs_release bootstrapperVersion) versionConstraints)
                  bootstrapperVersions))
    | _ => throw TypeError
    end
  else
    let* modInfo := getMod modID in
    match modInfo with
    | VMod modInfo =>
        let* vs := gets (versionsAt (versions modInfo)) in
        ret (map version
               (List.filter
                  (fun modVersion =>
                     versionSatisfiesAll (version modVersion) versionConstraints)
                  vs))
    | _ => throw TypeError
    end.

End WithSemver.

(** ** The accessors behind the cache, and the calls a client can make *)

Inductive Accessor :=
| AModDownloadLink (modID ver : string)
| AAvailableMods
| AMod (modID : string)
| AModVersions (modID : string)
| ASMLVersions
| ABootstrapperVersions.

(** The [requestID] each accessor builds. *)
Definition requestID (a : Accessor) : string :=
  match a with
  | AModDownloadLink modID ver => "getModDownloadLink_" +:+ modID +:+ "_" +:+ ver
  | AAvailableMods => "getAvailableMods"
  | AMod modID => "getMod_" +:+ modID
  | AModVersions modID => "getModVersions_" +:+ modID
  | ASMLVersions => "getSMLVersions"
  | ABootstrapperVersions => "getBootstrapperVersions"
  end.

(** The kind of payload each accessor stores under its key. *)
Definition payloadKind (a : Accessor) (v : Value) : Prop :=
  match a, v with
  | AModDownloadLink _ _, VString _ => True
  | AAvailableMods, VMods _ => True
  | AMod _, VMod _ => True
  | AModVersions _, VVersions _ => True
  | ASMLVersions, VSMLVersions _ => True
  | ABootstrapperVersions, VBootstrapperVersions _ => True
  | _, _ => False
  end.

(** Every entry of the cache holds a payload of the kind of its key. *)
Definition cacheTyped (w : World) : Prop :=
  forall a entry, cachedFetch w !! requestID a = Some entry -> payloadKind a (data entry).

Inductive Call :=
| CSetUseTempMods (enable : bool)
| CGetUseTempMods (use : bool)
| CAddTempMod (m : FicsitAppMod)
| CAddTempModVersion (v : FicsitAppVersion)
| CRemoveTempMod (modID : string)
| CRemoveTempModVersion (modID ver : string)
| CAccess (a : Accessor)
| CGetModLatestVersion (modID : string)
| CFindVersionMatchingAll (modID : string) (versionConstraints : list string)
| CGetSMLVersionInfo (ver : string)
| CGetLatestSMLVersion
| CGetBootstrapperVersionInfo (ver : string)
| CGetLatestBootstrapperVersion
| CFindAllVersionsMatchingAll (modID : string) (versionConstraints : list string)
| CNewVersions (vs : list FicsitAppVersion)   (* a caller builds an array of versions *)
| CClock (t : Z).                             (* time passes *)

Section Calls.
Context `{Semver} `{Handlers}.

Definition access (a : Accessor) : M Value :=
  match a with
  | AModDownloadLink modID ver => getModDownloadLink modID ver
  | AAvailableMods => getAvailableMods
  | AMod modID => getMod modID
  | AModVersions modID => getModVersions modID
  | ASMLVersions => getAvailableSMLVersions
  | ABootstrapperVersions => getAvailableBootstrapperVersions
  end.

(** The world a call leaves behind, whether it returns or throws. *)
Definition exec (c : Call) (w : World) : World :=
  match c with
  | CSetUseTempMods enable => setUseTempMods enable w
  | CGetUseTempMods use => getUseTempMods use w
  | CAddTempMod m => addTempMod m w
  | CAddTempModVersion v => addTempModVersion v w
  | CRemoveTempMod modID => removeTempMod modID w
  | CRemoveTempModVersion modID ver => removeTempModVersion modID ver w
  | CAccess a => snd (access a w)
  | CGetModLatestVersion modID => snd (getModLatestVersion modID w)
  | CFindVersionMatchingAll modID cs => snd (findVersionMatchingAll modID cs w)
  | CGetSMLVersionInfo ver => snd (getSMLVersionInfo ver w)
  | CGetLatestSMLVersion => snd (getLatestSMLVersion w)
  | CGetBootstrapperVersionInfo ver => snd (getBootstrapperVersionInfo ver w)
  | CGetLatestBootstrapperVersion => snd (getLatestBootstrapperVersion w)
  | CFindAllVersionsMatchingAll modID cs => snd (findAllVersionsMatchingAll modID cs w)
  | CNewVersions vs => snd (newVersions vs w)
  | CClock t => set_now t w
  end.

Definition execAll (cs : list Call) (w : World) : World :=
  fold_left (fun w c => exec c w) cs w.

(** The worlds a program can be in: those some sequence of calls reaches
    from a freshly loaded module, whatever the registry answers. *)
Definition reachable (w : World) : Prop :=
  exists r t cs, w = execAll cs (init r t).

(** Every array of loader versions in the store passed the floor
    [>=2.0.0] of [getAvailableSMLVersions]. *)
Definition smlFloor (v : FicsitAppSMLVersion) : bool :=
  satisfies (sml_release v) ">=2.0.0".

Definition smlArraysFiltered (w : World) : Prop :=
  forall l vs, smlArrays w !! l = Some vs -> Forall (fun v => smlFloor v = true) vs.

(** The entry of the loader versions, when there is one, is such an array. *)
Definition smlEntryTyped (w : World) : Prop :=
  forall entry, cachedFetch w !! "getSMLVersions" = Some entry ->
                exists l, data entry = VSMLVersions l.

(** What holds of the loader versions in every world a program reaches. *)
Definition loaderInvariant (w : World) : Prop :=
  smlArraysFiltered w /\ smlEntryTyped w.

End Calls.

(** The uniqueness the data model asks of the overlay. *)
Definition overlayUnique (w : World) : Prop :=
  List.NoDup (map id (tempMods w)) /\
  forall m, In m (tempMods w) -> List.NoDup (map version (versionsAt (versions m) w)).

(** ** Semantic versions of the form MAJOR.MINOR.PATCH

    An instance of the [semver] interface on the plain versions
    [MAJOR.MINOR.PATCH] and on ranges made of one comparator ([>=2.0.0],
    [<3.1.0], [1.2.3]), where it computes what the package computes. It
    gives the examples below something to run on. *)
Module SemverCore.

Definition digit (c : ascii) : option N :=
  let n := N_of_ascii c in
  if ((48 <=? n) && (n <=? 57))%N then Some (n - 48)%N else None.

Fixpoint numeral_from (acc : N) (s : string) : option N :=
  match s with
  | EmptyString => Some acc
  | String c s' =>
      match digit c with
      | Some d => numeral_from (10 * acc + d)%N s'
      | None => None
      end
  end.

Definition numeral (s : string) : option N :=
  match s with
  | EmptyString => None
  | _ => numeral_from 0%N s
  end.

(** The pieces of [s] between dots; [cur] is the piece being read, reversed. *)
Fixpoint split_dots (cur : string) (s : string) : list string :=
  match s with
  | EmptyString => [String.rev cur]
  | String c s' =>
      if Ascii.eqb c "."%char then String.rev cur :: split_dots EmptyString s'
      else split_dots (String c cur) s'
  end.

Definition parse (s : string) : option (N * N * N) :=
  match split_dots EmptyString s with
  | [a; b; c] =>
      match numeral a, numeral b, numeral c with
      | Some x, Some y, Some z => Some (x, y, z)
      | _, _, _ => None
      end
  | _ => None
  end.

Definition lex (c1 c2 : comparison) : comparison :=
  match c1 with Eq => c2 | _ => c1 end.

Definition compare3 (a b : N * N * N) : comparison :=
  let '(a1, a2, a3) := a in
  let '(b1, b2, b3) := b in
  lex (N.compare a1 b1) (lex (N.compare a2 b2) (N.compare a3 b3)).

Definition key (s : string) : N * N * N := default (0, 0, 0)%N (parse s).

Definition sign (c : comparison) : Z :=
  match c with Lt => -1 | Eq => 0 | Gt => 1 end.

Definition compare (a b : string) : Z := sign (compare3 (key a) (key b)).

Fixpoint strip_prefix (p s : string) : option string :=
  match p, s with
  | EmptyString, _ => Some s
  | String c p', String d s' => if Ascii.eqb c d then strip_prefix p' s' else None
  | String _ _, EmptyString => None
  end.

(** One comparator: its operator, as a test on the outcome of comparing
    the version with the operand, and its operand. *)
Definition comparator (r : string) : (comparison -> bool) * string :=
  match strip_prefix ">=" r with
  | Some v => (fun c => match c with Lt => false | _ => true end, v)
  | None =>
  match strip_prefix "<=" r with
  | Some v => (fun c => match c with Gt => false | _ => true end, v)
  | None =>
  match strip_prefix ">" r with
  | Some v => (fun c => match c with Gt => true | _ => false end, v)
  | None =>
  match strip_prefix "<" r with
  | Some v => (fun c => match c with Lt => true | _ => false end, v)
  | None =>
  match strip_prefix "=" r with
  | Some v => (fun c => match c with Eq => true | _ => false end, v)
  | None => (fun c => match c with Eq => true | _ => false end, r)
  end end end end end.

Definition satisfies (ver range : string) : bool :=
  let '(test, operand) := comparator range in
  match parse ver, parse operand with
  | Some v, Some o => test (compare3 v o)
  | _, _ => false
  end.

End SemverCore.

#[export] Instance semverCore : Semver :=
  {| compare := SemverCore.compare; satisfies := SemverCore.satisfies |}.

(** The loader and bootstrapper identifiers, and a floor that agrees with
    the one [getAvailableSMLVersions] applies. *)
#[export] Instance handlersCore : Handlers :=
  {| minSMLVersion := "2.0.0"; SMLModID := "SML"; BootstrapperModID := "bootstrapper" |}.

(** [a] may stand before [b] in an array sorted with [comparefn]. *)
Definition before {A} (comparefn : A -> A -> Z) (a b : A) : Prop := comparefn a b <= 0.

(** ** A sample registry and sample records *)
Module Examples.

Definition releaseOf (modID ver : string) : FicsitAppVersion :=
  {| mod_id := modID; version := ver; sml_version := "2.0.0"; changelog := "";
     downloads := "0"; stability := release;
     link := "/files/" +:+ modID +:+ "-" +:+ ver +:+ ".zip" |}.

Definition modOf {V} (modID : string) (vs : V) : Mod V :=
  {| id := modID; name := modID; short_description := ""; full_description := "";
     logo := ""; source_url := ""; views := 0; mod_downloads := 0; hotness := 0;
     popularity := 0; last_version_date := DateText "2020-05-01T10:00:00Z";
     authors := []; versions := vs |}.

Definition smlOf (ver : string) : FicsitAppSMLVersion :=
  {| sml_id := ver; sml_release := ver; sml_satisfactory_version := 121000;
     sml_stability := release; sml_link := ""; sml_changelog := "";
     sml_date := DateText "2020-05-01T10:00:00Z"; bootstrap_version := "2.0.0" |}.

Definition bootstrapperOf (ver : string) : FicsitAppBootstrapperVersion :=
  {| bs_id := ver; bs_release := ver; bs_satisfactory_version := 121000;
     bs_stability := release; bs_link := ""; bs_changelog := "";
     bs_date := DateNull |}.

(** A registry that knows the mod [modB] with three releases, a mod
    filed under the identifier [SML] with one, three loader versions and
    two bootstrapper versions; each round trip takes 10 ms. *)
Definition registry : nat -> forall A, Request A -> Reply A :=
  fun _ A query =>
    {| outcome :=
         match query in Request T return Transport T with
         | QueryModDownloadLink modID ver =>
             Data (if String.eqb modID "modB"
                   then Some (if String.eqb ver "1.0.0" then Some "/files/b.zip" else None)
                   else None)
         | QueryMods => Data [modOf "modB" [releaseOf "modB" "1.0.0"]]
         | QueryMod modID =>
             Data (if String.eqb modID "modB"
                   then Some (modOf "modB" [releaseOf "modB" "1.0.0";
                                            releaseOf "modB" "1.2.0";
                                            releaseOf "modB" "1.1.0"])
                   else if String.eqb modID "SML"
                   then Some (modOf "SML" [releaseOf "SML" "1.0.0"])
                   else None)
         | QueryModVersions modID =>
             Data (if String.eqb modID "modB"
                   then Some [releaseOf "modB" "1.0.0"; releaseOf "modB" "1.2.0";
                              releaseOf "modB" "1.1.0"]
                   else None)
         | QuerySMLVersions => Data [smlOf "1.9.0"; smlOf "2.2.0"; smlOf "2.0.0"]
         | QueryBootstrapVersions => Data [bootstrapperOf "2.0.0"; bootstrapperOf "2.0.11"]
         end;
       elapsed := 10 |}.

(** A registry that cannot be reached. *)
Definition offline : nat -> forall A, Request A -> Reply A :=
  fun _ A _ => {| outcome := Rejected; elapsed := 10 |}.

(** A registry that answers every request with a well-formed body that
    has no [data] member, as a GraphQL server does when it reports errors
    of its own. *)
Definition silent : nat -> forall A, Request A -> Reply A :=
  fun _ A _ => {| outcome := NoData; elapsed := 10 |}.

(** A registry whose loader versions are all older than 2.0.0. *)
Definition outdated : nat -> forall A, Request A -> Reply A :=
  fun _ A query =>
    {| outcome :=
         match query in Request T return Transport T with
         | QuerySMLVersions => Data [smlOf "1.9.0"; smlOf "1.6.1"]
         | _ => Rejected
         end;
       elapsed := 10 |}.

(** A registry that files a mod under the identifier [mod_B]. *)
Definition underscored : nat -> forall A, Request A -> Reply A :=
  fun _ A query =>
    {| outcome :=
         match query in Request T return Transport T with
         | QueryModDownloadLink modID ver =>
             Data (if String.eqb modID "mod_B" then Some (Some "/files/mod_B.zip")
                   else None)
         | _ => Rejected
         end;
       elapsed := 10 |}.

(** A registry that answers the first request and cannot be reached
    afterwards. *)
Definition flaky : nat -> forall A, Request A -> Reply A :=
  fun n A query =>
    match n with
    | O => registry n A query
    | S _ => {| outcome := Rejected; elapsed := 10 |}
    end.

Definition start : World := init registry 0.

(** An overlay mod [modA] whose versions are the array at reference 0. *)
Definition modA : FicsitAppMod := modOf "modA" 0%nat.

End Examples.

(** ** Calls seen from outside: their accessor, their request, their failure *)

(** How the answer to a request ends, as far as the caller can tell. *)
Inductive ReplyKind := ReplyFailed | ReplyNoData | ReplyData.

Definition replyKindOf {A} (t : Transport A) : ReplyKind :=
  match t with
  | Rejected | Malformed | JsonNull => ReplyFailed
  | NoData => ReplyNoData
  | Data _ => ReplyData
  end.

(** The answer the registry gives to the one request an accessor would issue
    in the world [w]. *)
Definition replyKind (a : Accessor) (w : World) : ReplyKind :=
  match a with
  | AModDownloadLink modID ver =>
      replyKindOf (outcome (remote w (sent w) _ (QueryModDownloadLink modID ver)))
  | AAvailableMods => replyKindOf (outcome (remote w (sent w) _ QueryMods))
  | AMod modID => replyKindOf (outcome (remote w (sent w) _ (QueryMod modID)))
  | AModVersions modID =>
      replyKindOf (outcome (remote w (sent w) _ (QueryModVersions modID)))
  | ASMLVersions => replyKindOf (outcome (remote w (sent w) _ QuerySMLVersions))
  | ABootstrapperVersions =>
      replyKindOf (outcome (remote w (sent w) _ QueryBootstrapVersions))
  end.

(** What that round trip adds to the clock. *)
Definition replyElapsed (a : Accessor) (w : World) : Z :=
  match a with
  | AModDownloadLink modID ver =>
      elapsed (remote w (sent w) _ (QueryModDownloadLink modID ver))
  | AAvailableMods => elapsed (remote w (sent w) _ QueryMods)
  | AMod modID => elapsed (remote w (sent w) _ (QueryMod modID))
  | AModVersions modID => elapsed (remote w (sent w) _ (QueryModVersions modID))
  | ASMLVersions => elapsed (remote w (sent w) _ QuerySMLVersions)
  | ABootstrapperVersions => elapsed (remote w (sent w) _ QueryBootstrapVersions)
  end.

(** The registry answers that request with what was asked for: a link, a
    mod, a list. (For the three lists any [data] is such an answer.) *)
Definition liveAnswer (a : Accessor) (w : World) : bool :=
  match a with
  | AModDownloadLink modID ver =>
      match outcome (remote w (sent w) _ (QueryModDownloadLink modID ver)) with
      | Data (Some (Some _)) => true
      | _ => false
      end
  | AAvailableMods =>
      match outcome (remote w (sent w) _ QueryMods) with Data _ => true | _ => false end
  | AMod modID =>
      match outcome (remote w (sent w) _ (QueryMod modID)) with
      | Data (Some _) => true
      | _ => false
      end
  | AModVersions modID =>
      match outcome (remote w (sent w) _ (QueryModVersions modID)) with
      | Data (Some _) => true
      | _ => false
      end
  | ASMLVersions =>
      match outcome (remote w (sent w) _ QuerySMLVersions) with Data _ => true | _ => false end
  | ABootstrapperVersions =>
      match outcome (remote w (sent w) _ QueryBootstrapVersions) with
      | Data _ => true
      | _ => false
      end
  end.

Definition thrown {A} (r : Result A) : option Exn :=
  match r with
  | Ok _ => None
  | Throw e => Some e
  end.

Section Outcomes.
Context `{Semver} `{Handlers}.

(** The accessor a call goes through, when it goes through one. *)
Definition accessorOf (c : Call) : option Accessor :=
  match c with
  | CAccess a => Some a
  | CGetModLatestVersion modID => Some (AModVersions modID)
  | CFindVersionMatchingAll modID _ => Some (AMod modID)
  | CGetSMLVersionInfo _ | CGetLatestSMLVersion => Some ASMLVersions
  | CGetBootstrapperVersionInfo _ | CGetLatestBootstrapperVersion =>
      Some ABootstrapperVersions
  | CFindAllVersionsMatchingAll modID _ =>
      Some (if String.eqb modID SMLModID then ASMLVersions
            else if String.eqb modID BootstrapperModID then ABootstrapperVersions
            else AMod modID)
  | _ => None
  end.

(** The exception a call ends with, when it throws. *)
Definition thrownBy (c : Call) (w : World) : option Exn :=
  match c with
  | CAccess a => thrown (fst (access a w))
  | CGetModLatestVersion modID => thrown (fst (getModLatestVersion modID w))
  | CFindVersionMatchingAll modID cs => thrown (fst (findVersionMatchingAll modID cs w))
  | CGetSMLVersionInfo ver => thrown (fst (getSMLVersionInfo ver w))
  | CGetLatestSMLVersion => thrown (fst (getLatestSMLVersion w))
  | CGetBootstrapperVersionInfo ver => thrown (fst (getBootstrapperVersionInfo ver w))
  | CGetLatestBootstrapperVersion => thrown (fst (getLatestBootstrapperVersion w))
  | CFindAllVersionsMatchingAll modID cs =>
      thrown (fst (findAllVersionsMatchingAll modID cs w))
  | _ => None
  end.

(** The value [v] an accessor returns, in the world [w1] it leaves, is the
    answer the registry gave to its request in the world [w]: the link
    behind the API address; the mods with their dates converted and their
    versions in arrays, followed by the overlay mods when the overlay is
    enabled; the mod; the list of versions; the loader versions that pass
    the floor, dates converted; the bootstrapper versions, dates
    converted. *)
Definition holdsAnswer (a : Accessor) (w : World) (v : Value) (w1 : World) : Prop :=
  match a with
  | AModDownloadLink modID ver =>
      exists link,
        outcome (remote w (sent w) _ (QueryModDownloadLink modID ver))
        = Data (Some (Some link)) /\
        v = VString (API_URL +:+ link)
  | AAvailableMods =>
      exists mods live,
        outcome (remote w (sent w) _ QueryMods) = Data mods /\
        v = VMods (live ++ (if useTempMods w then tempMods w else [])) /\
        map id live = map id mods /\
        map last_version_date live = map (fun m => toDate (last_version_date m)) mods /\
        Forall2 (fun m wire => versionsAt (versions m) w1 = versions wire) live mods
  | AMod modID =>
      exists resGetMod l,
        outcome (remote w (sent w) _ (QueryMod modID)) = Data (Some resGetMod) /\
        v = VMod (with_last_version_date (toDate (last_version_date resGetMod))
                    (withVersions l resGetMod)) /\
        versionsAt l w1 = versions resGetMod
  | AModVersions modID =>
      exists vs l,
        outcome (remote w (sent w) _ (QueryModVersions modID)) = Data (Some vs) /\
        v = VVersions l /\ versionsAt l w1 = vs
  | ASMLVersions =>
      exists vs l,
        outcome (remote w (sent w) _ QuerySMLVersions) = Data vs /\
        v = VSMLVersions l /\
        smlVersionsAt l w1
        = map (fun x => with_sml_date (toDate (sml_date x)) x)
            (List.filter (fun x => satisfies (sml_release x) ">=2.0.0") vs)
  | ABootstrapperVersions =>
      exists vs l,
        outcome (remote w (sent w) _ QueryBootstrapVersions) = Data vs /\
        v = VBootstrapperVersions l /\
        bootstrapperVersionsAt l w1 = map (fun x => with_bs_date (toDate (bs_date x)) x) vs
  end.

End Outcomes.

(** Two worlds that differ at most in the clock and in the count of requests. *)
Definition sameButClock (w w' : World) : Prop :=
  useTempMods w' = useTempMods w /\ tempMods w' = tempMods w /\
  cachedFetch w' = cachedFetch w /\ versionArrays w' = versionArrays w /\
  smlArrays w' = smlArrays w /\ bootstrapperArrays w' = bootstrapperArrays w /\
  nextLoc w' = nextLoc w /\ remote w' = remote w /\ warnings w' = warnings w.

(** The calls that sort an array with [compare]: the three latest-version
    functions. The package's [compare] throws on a string that is not a
    version, which the comparison taken here on valid versions does not
    show; what is stated of calls that cannot fail in that way is stated
    of the others. *)
Definition sortsInPlace (c : Call) : bool :=
  match c with
  | CGetModLatestVersion _ | CGetLatestSMLVersion | CGetLatestBootstrapperVersion => true
  | _ => false
  end.

(** No underscore in a string. *)
Fixpoint noUnderscore (s : string) : bool :=
  match s with
  | EmptyString => true
  | String c s' => negb (Ascii.eqb c "_"%char) && noUnderscore s'
  end.

(** The mod identifier of a download-link request has no underscore, as
    the identifiers the registry issues. *)
Definition plainModID (a : Accessor) : bool :=
  match a with
  | AModDownloadLink modID _ => noUnderscore modID
  | _ => true
  end.

(** * Properties *)

(** ** Sorting *)

Section SortFacts.
Context {A : Type} (comparefn : A -> A -> Z).

Lemma sort_insert_In x l z :
  In z (sort_insert comparefn x l) <-> z = x \/ In z l.
Proof.
  induction l as [|y l IH]; simpl.
  - intuition.
  - destruct (0 <? comparefn x y); simpl; rewrite ?IH; intuition.
Qed.

Lemma sort_In l z : In z (sort comparefn l) <-> In z l.
Proof.
  induction l as [|x l IH]; simpl; [reflexivity|].
  rewrite sort_insert_In, IH. intuition.
Qed.

Lemma sort_insert_Permutation x l :
  Permutation (sort_insert comparefn x l) (x :: l).
Proof.
  induction l as [|y l IH]; simpl; [reflexivity|].
  destruct (0 <? comparefn x y); [|reflexivity].
  rewrite IH. apply perm_swap.
Qed.

Lemma sort_Permutation l : Permutation (sort comparefn l) l.
Proof.
  induction l as [|x l IH]; simpl; [reflexivity|].
  rewrite sort_insert_Permutation. now constructor.
Qed.

Lemma sort_Forall (P : A -> Prop) l : Forall P l -> Forall P (sort comparefn l).
Proof.
  intros HP. rewrite List.Forall_forall in *. intros z Hz. apply HP.
  now apply sort_In.
Qed.

Lemma sort_nonempty l : l <> [] -> sort comparefn l <> [].
Proof.
  intros Hl Hs. pose proof (Permutation_length (sort_Permutation l)) as Hlen.
  rewrite Hs in Hlen. destruct l; [congruence | discriminate].
Qed.

(** With a consistent comparator the outcome is ordered. *)
Hypothesis total : forall a b, 0 < comparefn a b -> comparefn b a <= 0.
Hypothesis trans : forall a b c,
  comparefn a b <= 0 -> comparefn b c <= 0 -> comparefn a c <= 0.

Lemma sort_insert_sorted x l :
  StronglySorted (before comparefn) l -> StronglySorted (before comparefn) (sort_insert comparefn x l).
Proof.
  induction 1 as [|y l Hl IH Hy]; simpl.
  - repeat constructor.
  - destruct (0 <? comparefn x y) eqn:E.
    + apply Z.ltb_lt in E. constructor; [exact IH|].
      rewrite List.Forall_forall in *. intros z Hz.
      apply sort_insert_In in Hz as [->|Hz]; [now apply total | now apply Hy].
    + apply Z.ltb_ge in E. constructor; [now constructor|].
      constructor; [exact E|].
      rewrite List.Forall_forall in *. intros z Hz.
      apply trans with y; [exact E | now apply Hy].
Qed.

Lemma sort_sorted l : StronglySorted (before comparefn) (sort comparefn l).
Proof.
  induction l as [|x l IH]; simpl; [constructor | now apply sort_insert_sorted].
Qed.

Lemma sort_head_first l x :
  (forall a, comparefn a a <= 0) ->
  head (sort comparefn l) = Some x ->
  In x l /\ forall y, In y l -> comparefn x y <= 0.
Proof.
  intros Hrefl Hhd. pose proof (sort_sorted l) as Hs.
  destruct (sort comparefn l) as [|x' s] eqn:E; [discriminate|].
  simpl in Hhd. injection Hhd as ->.
  split.
  - apply sort_In. rewrite E. now left.
  - intros y Hy. apply sort_In in Hy. rewrite E in Hy.
    inversion Hs as [|? ? _ Hall]; subst.
    destruct Hy as [->|Hy]; [apply Hrefl|].
    rewrite List.Forall_forall in Hall. now apply Hall.
Qed.

End SortFacts.

(** ** The instance is an order *)

Module SemverCoreFacts.
Import SemverCore.

Lemma compare3_ge (a b : N * N * N) :
  compare3 a b <> Lt <->
  (let '(a1, a2, a3) := a in
   let '(b1, b2, b3) := b in
   b1 < a1 \/ (a1 = b1 /\ (b2 < a2 \/ (a2 = b2 /\ b3 <= a3))))%N.
Proof.
  destruct a as [[a1 a2] a3], b as [[b1 b2] b3]. unfold compare3, lex.
  destruct (N.compare_spec a1 b1), (N.compare_spec a2 b2), (N.compare_spec a3 b3);
    split; intros Hc; try congruence; try lia; try discriminate.
Qed.

Lemma compare3_antisym (a b : N * N * N) : compare3 b a = CompOpp (compare3 a b).
Proof.
  destruct a as [[a1 a2] a3], b as [[b1 b2] b3]. unfold compare3, lex.
  rewrite (N.compare_antisym a1 b1), (N.compare_antisym a2 b2),
    (N.compare_antisym a3 b3).
  destruct (N.compare a1 b1), (N.compare a2 b2), (N.compare a3 b3); reflexivity.
Qed.

Lemma sign_nonneg c : 0 <= sign c <-> c <> Lt.
Proof. destruct c; simpl; split; intros; try lia; congruence. Qed.

Lemma order : @SemverOrder semverCore.
Proof.
  split; simpl; unfold compare.
  - intros a b. rewrite compare3_antisym. destruct (compare3 (key a) (key b)); reflexivity.
  - intros a b c. rewrite !sign_nonneg, !compare3_ge.
    destruct (key a) as [[a1 a2] a3], (key b) as [[b1 b2] b3], (key c) as [[c1 c2] c3].
    lia.
Qed.

End SemverCoreFacts.

#[export] Existing Instance SemverCoreFacts.order.

(** ** Running a call *)

Ltac run := unfold bind, gets, modify, ret, throw; simpl.

Lemma append_inj_l (s a b : string) : s +:+ a = s +:+ b -> a = b.
Proof. induction s as [|c s IH]; simpl; [auto | intros E; injection E; auto]. Qed.

Lemma hasTempMod_spec modID w :
  hasTempMod modID w = true <-> exists m, In m (tempMods w) /\ id m = modID.
Proof.
  unfold hasTempMod. rewrite existsb_exists.
  split; intros (m & Hin & E); exists m; split; auto; now apply String.eqb_eq.
Qed.

Lemma findTempMod_Some modID w m :
  findTempMod modID w = Some m -> In m (tempMods w) /\ id m = modID.
Proof.
  unfold findTempMod. intros E. apply find_some in E as [Hin E].
  split; [exact Hin | now apply String.eqb_eq].
Qed.


(** ** The query executor *)

(** The transport side of the executor: for every query and every world,
    [fiscitApiQuery] returns and never throws; when the transport fails (the
    request is rejected or the body is not a usable JSON document) what it
    returns is an object whose [errors] member is the network error. *)
Theorem fiscitApiQuery_uniform_failure (A : Type) (query : Request A) (w : World) :
  (exists res, fst (fiscitApiQuery query w) = Ok res) /\
  (forall e, fst (fiscitApiQuery query w) <> Throw e) /\
  (transportFailed (outcome (remote w (sent w) A query)) = true ->
   fst (fiscitApiQuery query w)
   = Ok (ResErrors (Error "Network error. Please try again later."))).
Proof.
  unfold fiscitApiQuery.
  destruct (outcome (remote w (sent w) A query)); simpl;
    (split; [eexists; reflexivity | split; [discriminate | auto; discriminate]]).
Qed.

Lemma fiscitApiQuery_uniform_failure_witness :
  fst (fiscitApiQuery (QueryMod "modB") (init Examples.offline 0))
  = Ok (ResErrors (Error "Network error. Please try again later.")).
Proof.
  apply (fiscitApiQuery_uniform_failure _ (QueryMod "modB") (init Examples.offline 0)).
  reflexivity.
Defined.

(** C9 at the input on which the code departs from it. The registry answers
    a query with a well-formed body that carries its own error list and no
    [data] (what a GraphQL server sends when a query fails on its side).
    The executor returns the [data] member of the body, so the failure of
    the registry does not come back as an [errors] member: the result has
    none, and [getMod], which reads [res.errors] next, throws a
    [TypeError]. Only the failure of the transport comes back as an
    [errors] member. *)
Theorem fiscitApiQuery_drops_registry_errors :
  fst (fiscitApiQuery (QueryMod "modB") (init Examples.silent 0)) = Ok ResUndefined /\
  (forall errors,
      fst (fiscitApiQuery (QueryMod "modB") (init Examples.silent 0))
      <> Ok (ResErrors errors)) /\
  fst (getMod "modB" (init Examples.silent 0)) = Throw TypeError /\
  fst (fiscitApiQuery (QueryMod "modB") (init Examples.offline 0))
  = Ok (ResErrors (Error "Network error. Please try again later.")).
Proof.
  split; [reflexivity|]. split; [intros errors; discriminate|].
  split; reflexivity.
Qed.

(** ** Download links *)

(** C8. When [getModDownloadLink] asks the registry and the answer holds no
    version for the pair, it throws a [ModNotFoundError]; the message is
    the one of a temporary mod exactly when the overlay holds a mod with
    that identifier, and the plain not-found message exactly when it holds
    none. *)
Theorem getModDownloadLink_not_found (modID ver : string) (w : World) :
  cooldownPassed (requestID (AModDownloadLink modID ver)) w = true ->
  outcome (remote w (sent w) _ (QueryModDownloadLink modID ver)) = Data None \/
  outcome (remote w (sent w) _ (QueryModDownloadLink modID ver)) = Data (Some None) ->
  exists message,
    fst (getModDownloadLink modID ver w) = Throw (ModNotFoundError message) /\
    (message = modID +:+ "@" +:+ ver +:+ " is a temporary mod. No download link available"
     <-> exists m, In m (tempMods w) /\ id m = modID) /\
    (message = modID +:+ "@" +:+ ver +:+ " not found"
     <-> ~ exists m, In m (tempMods w) /\ id m = modID).
Proof.
  intros Hpassed Hreply. simpl in Hpassed.
  pose proof (hasTempMod_spec modID w) as Hspec.
  assert (Hrun : fst (getModDownloadLink modID ver w)
                 = Throw (ModNotFoundError
                            (if hasTempMod modID w
                             then modID +:+ "@" +:+ ver +:+
                                  " is a temporary mod. No download link available"
                             else modID +:+ "@" +:+ ver +:+ " not found"))).
  { unfold getModDownloadLink. run. rewrite Hpassed. unfold fiscitApiQuery.
    destruct Hreply as [-> | ->]; simpl;
      change (hasTempMod modID _) with (hasTempMod modID w);
      destruct (hasTempMod modID w); reflexivity. }
  rewrite Hrun. destruct (hasTempMod modID w); eexists; (split; [reflexivity|]).
  - split; split; intros E.
    + now apply Hspec.
    + reflexivity.
    + repeat apply append_inj_l in E. discriminate.
    + exfalso. apply E. now apply Hspec.
  - assert (Hno : ~ exists m, In m (tempMods w) /\ id m = modID)
      by (intros Hex; apply Hspec in Hex; discriminate).
    split; split; intros E.
    + repeat apply append_inj_l in E. discriminate.
    + contradiction.
    + exact Hno.
    + reflexivity.
Qed.

Lemma getModDownloadLink_not_found_witness :
  (exists message,
      fst (getModDownloadLink "modA" "1.0.0" Examples.start)
      = Throw (ModNotFoundError message) /\
      (message = "modA@1.0.0 is a temporary mod. No download link available"
       <-> exists m, In m (tempMods Examples.start) /\ id m = "modA") /\
      (message = "modA@1.0.0 not found"
       <-> ~ exists m, In m (tempMods Examples.start) /\ id m = "modA")) /\
  (exists message,
      fst (getModDownloadLink "modA" "1.0.0" (set_tempMods [Examples.modA] Examples.start))
      = Throw (ModNotFoundError message) /\
      (message = "modA@1.0.0 is a temporary mod. No download link available"
       <-> exists m, In m (tempMods (set_tempMods [Examples.modA] Examples.start)) /\
                     id m = "modA") /\
      (message = "modA@1.0.0 not found"
       <-> ~ exists m, In m (tempMods (set_tempMods [Examples.modA] Examples.start)) /\
                       id m = "modA")) /\
  fst (getModDownloadLink "modA" "1.0.0" (set_tempMods [Examples.modA] Examples.start))
  = Throw (ModNotFoundError "modA@1.0.0 is a temporary mod. No download link available").
Proof.
  split; [|split; [|reflexivity]].
  - apply (getModDownloadLink_not_found "modA" "1.0.0" Examples.start).
    + reflexivity.
    + left. reflexivity.
  - apply (getModDownloadLink_not_found "modA" "1.0.0"
             (set_tempMods [Examples.modA] Examples.start)).
    + reflexivity.
    + left. reflexivity.
Defined.

(** ** Fetching one mod *)




(** ** What parsing a list of mods leaves alone *)

Lemma parseMods_frame (ms : list WireMod) (w : World) :
  (exists res, fst (parseMods ms w) = Ok res) /\
  useTempMods (snd (parseMods ms w)) = useTempMods w /\
  tempMods (snd (parseMods ms w)) = tempMods w /\
  cachedFetch (snd (parseMods ms w)) = cachedFetch w /\
  smlArrays (snd (parseMods ms w)) = smlArrays w /\
  bootstrapperArrays (snd (parseMods ms w)) = bootstrapperArrays w /\
  now (snd (parseMods ms w)) = now w /\
  sent (snd (parseMods ms w)) = sent w /\
  remote (snd (parseMods ms w)) = remote w /\
  warnings (snd (parseMods ms w)) = warnings w.
Proof.
  revert w. induction ms as [|m ms IH]; intros w; simpl.
  - unfold ret. simpl. repeat split; eauto.
  - unfold parseMod, newVersions. run.
    match goal with |- context [parseMods ms ?w1] => specialize (IH w1); revert IH end.
    destruct (parseMods ms _) as [[rest|e] w2]; simpl;
      intros ([res Hres] & IH); [|discriminate].
    simpl in IH. repeat split; eauto; apply IH.
Qed.

(** ** The cache *)

Section CacheFacts.
Context `{Semver} `{Handlers}.

(** A fresh entry is handed back as it is and nothing else happens. *)
Lemma access_hit (a : Accessor) (w : World) :
  cooldownPassed (requestID a) w = false ->
  access a w = (Ok (getCache (requestID a) w), w).
Proof.
  destruct a; simpl; intros Hhit;
    [unfold getModDownloadLink | unfold getAvailableMods | unfold getMod
    | unfold getModVersions | unfold getAvailableSMLVersions
    | unfold getAvailableBootstrapperVersions];
    run; now rewrite Hhit.
Qed.

(** Without a fresh entry exactly one request goes out. *)
Lemma access_miss_sent (a : Accessor) (w : World) :
  cooldownPassed (requestID a) w = true ->
  sent (snd (access a w)) = S (sent w).
Proof.
  destruct a; simpl; intros Hmiss;
    [unfold getModDownloadLink | unfold getAvailableMods | unfold getMod
    | unfold getModVersions | unfold getAvailableSMLVersions
    | unfold getAvailableBootstrapperVersions];
    run; rewrite Hmiss; unfold fiscitApiQuery;
    match goal with |- context [outcome ?r] => destruct (outcome r) as [| | | |d] end;
    simpl; try reflexivity.
  - destruct d as [[link|]|]; simpl; try reflexivity;
      match goal with |- context [hasTempMod ?i ?w'] => destruct (hasTempMod i w') end;
      reflexivity.
  - match goal with |- context [parseMods d ?w1] =>
      pose proof (parseMods_frame d w1) as ([res Hres] & _ & _ & _ & _ & _ & _ & Hsent & _)
    end.
    destruct (parseMods d _) as [[ms|e] w2]; simpl in *; [|discriminate].
    exact Hsent.
  - destruct d as [resGetMod|]; simpl; [reflexivity|].
    match goal with |- context [findTempMod ?i ?w'] => destruct (findTempMod i w') end;
      destruct (useTempMods w); reflexivity.
  - destruct d as [vs|]; simpl; [reflexivity|].
    match goal with |- context [findTempMod ?i ?w'] => destruct (findTempMod i w') end;
      destruct (useTempMods w); reflexivity.
Qed.


End CacheFacts.



(** ** The latest version *)

Lemma versionsAt_sortVersionsAt `{Semver} (l : loc) (w : World) :
  versionsAt l (sortVersionsAt l w) = sort (newestFirst version) (versionsAt l w).
Proof. unfold versionsAt at 1, sortVersionsAt. simpl. now rewrite lookup_insert_eq. Qed.

Lemma smlVersionsAt_sortSMLVersionsAt `{Semver} (l : loc) (w : World) :
  smlVersionsAt l (sortSMLVersionsAt l w)
  = sort (newestFirst sml_release) (smlVersionsAt l w).
Proof. unfold smlVersionsAt at 1, sortSMLVersionsAt. simpl. now rewrite lookup_insert_eq. Qed.

Lemma bootstrapperVersionsAt_sortBootstrapperVersionsAt `{Semver} (l : loc) (w : World) :
  bootstrapperVersionsAt l (sortBootstrapperVersionsAt l w)
  = sort (newestFirst bs_release) (bootstrapperVersionsAt l w).
Proof.
  unfold bootstrapperVersionsAt at 1, sortBootstrapperVersionsAt. simpl.
  now rewrite lookup_insert_eq.
Qed.

Lemma getModLatestVersion_run `{Semver} (modID : string) (w w1 : World) (l : loc) :
  getModVersions modID w = (Ok (VVersions l), w1) ->
  getModLatestVersion modID w
  = (Ok (head (sort (newestFirst version) (versionsAt l w1))), sortVersionsAt l w1).
Proof.
  intros Hvs. unfold getModLatestVersion, bind. rewrite Hvs. run.
  now rewrite versionsAt_sortVersionsAt.
Qed.

Section Latest.
Context `{SemverOrder}.

Lemma newestFirst_total {A} (f : A -> string) (a b : A) :
  0 < newestFirst f a b -> newestFirst f b a <= 0.
Proof. unfold newestFirst. rewrite (compare_antisym (f a) (f b)). lia. Qed.

Lemma newestFirst_trans {A} (f : A -> string) (a b c : A) :
  newestFirst f a b <= 0 -> newestFirst f b c <= 0 -> newestFirst f a c <= 0.
Proof.
  unfold newestFirst. intros Hab Hbc.
  pose proof (compare_trans (f a) (f b) (f c)). lia.
Qed.

Lemma newestFirst_refl {A} (f : A -> string) (a : A) : newestFirst f a a <= 0.
Proof. unfold newestFirst. pose proof (compare_antisym (f a) (f a)). lia. Qed.

(** C6. On a version list that is not empty, [getModLatestVersion] sorts
    the list newest first and returns its first entry: a record of the
    list that no record of the list exceeds in semantic-version
    precedence. In particular, when the list holds versions
    [v1 < v2], the record returned is not the one of [v1]. *)
Theorem getModLatestVersion_highest (modID : string) (w w1 : World) (l : loc) :
  getModVersions modID w = (Ok (VVersions l), w1) ->
  versionsAt l w1 <> [] ->
  exists r,
    getModLatestVersion modID w = (Ok (Some r), sortVersionsAt l w1) /\
    head (sort (newestFirst version) (versionsAt l w1)) = Some r /\
    In r (versionsAt l w1) /\
    (forall u, In u (versionsAt l w1) -> compare (version u) (version r) <= 0) /\
    (forall v1 v2, In v1 (versionsAt l w1) -> In v2 (versionsAt l w1) ->
                   compare (version v1) (version v2) < 0 -> r <> v1).
Proof.
  intros Hvs Hne. rewrite (getModLatestVersion_run _ _ _ _ Hvs).
  pose proof (sort_nonempty (newestFirst version) _ Hne) as Hsort.
  destruct (sort (newestFirst version) (versionsAt l w1)) as [|r s] eqn:E;
    [congruence|].
  exists r. simpl.
  destruct (sort_head_first (newestFirst version)
              (newestFirst_total version) (newestFirst_trans version)
              (versionsAt l w1) r (newestFirst_refl version)) as [Hin Hmax].
  { now rewrite E. }
  assert (Hle : forall u, In u (versionsAt l w1) ->
                          compare (version u) (version r) <= 0).
  { intros u Hu. specialize (Hmax u Hu). unfold newestFirst in Hmax.
    rewrite (compare_antisym (version r) (version u)). lia. }
  repeat split; auto.
  intros v1 v2 H1 H2 Hlt ->.
  specialize (Hle v2 H2). rewrite (compare_antisym (version v1) (version v2)) in Hle.
  lia.
Qed.

End Latest.

Lemma getModLatestVersion_highest_witness :
  exists r,
    getModLatestVersion "modB" Examples.start
    = (Ok (Some r), sortVersionsAt 0%nat (snd (getModVersions "modB" Examples.start))) /\
    head (sort (newestFirst version)
            (versionsAt 0%nat (snd (getModVersions "modB" Examples.start)))) = Some r /\
    In r (versionsAt 0%nat (snd (getModVersions "modB" Examples.start))) /\
    (forall u, In u (versionsAt 0%nat (snd (getModVersions "modB" Examples.start))) ->
               compare (version u) (version r) <= 0) /\
    (forall v1 v2,
        In v1 (versionsAt 0%nat (snd (getModVersions "modB" Examples.start))) ->
        In v2 (versionsAt 0%nat (snd (getModVersions "modB" Examples.start))) ->
        compare (version v1) (version v2) < 0 -> r <> v1).
Proof.
  apply (getModLatestVersion_highest "modB" Examples.start
           (snd (getModVersions "modB" Examples.start)) 0%nat).
  - reflexivity.
  - vm_compute. discriminate.
Defined.

(** ** Sorting in place and the cache *)

Section InPlace.
Context `{Semver} `{Handlers}.

Lemma getAvailableSMLVersions_cached (w w1 : World) (v : Value) :
  getAvailableSMLVersions w = (Ok v, w1) -> getCache "getSMLVersions" w1 = v.
Proof.
  unfold getAvailableSMLVersions. run.
  destruct (cooldownPassed "getSMLVersions" w).
  - unfold fiscitApiQuery.
    destruct (outcome _) as [| | | |d]; simpl; intros E; try discriminate.
    now injection E as <- <-.
  - intros E. now injection E as <- <-.
Qed.

Lemma getAvailableBootstrapperVersions_cached (w w1 : World) (v : Value) :
  getAvailableBootstrapperVersions w = (Ok v, w1) ->
  getCache "getBootstrapperVersions" w1 = v.
Proof.
  unfold getAvailableBootstrapperVersions. run.
  destruct (cooldownPassed "getBootstrapperVersions" w).
  - unfold fiscitApiQuery.
    destruct (outcome _) as [| | | |d]; simpl; intros E; try discriminate.
    now injection E as <- <-.
  - intros E. now injection E as <- <-.
Qed.

(** Where the array [getModVersions] returns comes from: it is the payload
    of the cache entry, unless the registry reported no mod and the enabled
    overlay supplied the array of one of its mods. *)
Lemma getModVersions_source (modID : string) (w w1 : World) (v : Value) :
  getModVersions modID w = (Ok v, w1) ->
  getCache (requestID (AModVersions modID)) w1 = v \/
  (useTempMods w = true /\
   exists tempMod, findTempMod modID w = Some tempMod /\ v = VVersions (versions tempMod)).
Proof.
  unfold getModVersions. run.
  destruct (cooldownPassed _ w).
  - unfold fiscitApiQuery.
    destruct (outcome _) as [| | | |[vs|]]; simpl; intros E; try discriminate.
    + left. now injection E as <- <-.
    + change (findTempMod modID _) with (findTempMod modID w) in E.
      destruct (useTempMods w); [|discriminate].
      destruct (findTempMod modID w) as [tempMod|]; [|discriminate].
      right. split; [reflexivity|]. exists tempMod. split; [reflexivity|].
      now injection E as <- _.
  - intros E. left. now injection E as <- <-.
Qed.

(** C10. The three [getLatest...] functions sort, in place, the array the
    accessor under them returned. When that array is the payload of the
    cache entry (for the loader and the bootstrapper it always is), the
    entry holds the reordered array afterwards, and a later read of the
    same key that hits the cache returns that array in its new order,
    newest first, not in the order in which it was stored. *)
Theorem latest_sorts_cached_array :
  (forall modID w l w1,
      getModVersions modID w = (Ok (VVersions l), w1) ->
      getCache (requestID (AModVersions modID)) w1 = VVersions l ->
      getModLatestVersion modID w
      = (Ok (head (sort (newestFirst version) (versionsAt l w1))), sortVersionsAt l w1) /\
      getCache (requestID (AModVersions modID)) (sortVersionsAt l w1) = VVersions l /\
      forall t,
        cooldownPassed (requestID (AModVersions modID))
          (set_now t (sortVersionsAt l w1)) = false ->
        getModVersions modID (set_now t (sortVersionsAt l w1))
        = (Ok (VVersions l), set_now t (sortVersionsAt l w1)) /\
        versionsAt l (set_now t (sortVersionsAt l w1))
        = sort (newestFirst version) (versionsAt l w1)) /\
  (forall w l w1,
      getAvailableSMLVersions w = (Ok (VSMLVersions l), w1) ->
      getLatestSMLVersion w
      = (Ok (head (sort (newestFirst sml_release) (smlVersionsAt l w1))),
         sortSMLVersionsAt l w1) /\
      getCache (requestID ASMLVersions) (sortSMLVersionsAt l w1) = VSMLVersions l /\
      forall t,
        cooldownPassed (requestID ASMLVersions)
          (set_now t (sortSMLVersionsAt l w1)) = false ->
        getAvailableSMLVersions (set_now t (sortSMLVersionsAt l w1))
        = (Ok (VSMLVersions l), set_now t (sortSMLVersionsAt l w1)) /\
        smlVersionsAt l (set_now t (sortSMLVersionsAt l w1))
        = sort (newestFirst sml_release) (smlVersionsAt l w1)) /\
  (forall w l w1,
      getAvailableBootstrapperVersions w = (Ok (VBootstrapperVersions l), w1) ->
      getLatestBootstrapperVersion w
      = (Ok (head (sort (newestFirst bs_release) (bootstrapperVersionsAt l w1))),
         sortBootstrapperVersionsAt l w1) /\
      getCache (requestID ABootstrapperVersions) (sortBootstrapperVersionsAt l w1)
      = VBootstrapperVersions l /\
      forall t,
        cooldownPassed (requestID ABootstrapperVersions)
          (set_now t (sortBootstrapperVersionsAt l w1)) = false ->
        getAvailableBootstrapperVersions (set_now t (sortBootstrapperVersionsAt l w1))
        = (Ok (VBootstrapperVersions l), set_now t (sortBootstrapperVersionsAt l w1)) /\
        bootstrapperVersionsAt l (set_now t (sortBootstrapperVersionsAt l w1))
        = sort (newestFirst bs_release) (bootstrapperVersionsAt l w1)).
Proof.
  split; [|split].
  - intros modID w l w1 Hvs Hcached.
    split; [now apply getModLatestVersion_run|].
    split; [exact Hcached|].
    intros t Hhit. split.
    + change (getModVersions modID) with (access (AModVersions modID)).
      rewrite (access_hit _ _ Hhit). f_equal. f_equal. exact Hcached.
    + exact (versionsAt_sortVersionsAt l w1).
  - intros w l w1 Hvs.
    pose proof (getAvailableSMLVersions_cached _ _ _ Hvs) as Hcached.
    split.
    { unfold getLatestSMLVersion, bind. rewrite Hvs. run.
      now rewrite smlVersionsAt_sortSMLVersionsAt. }
    split; [exact Hcached|].
    intros t Hhit. split.
    + change getAvailableSMLVersions with (access ASMLVersions).
      rewrite (access_hit _ _ Hhit). f_equal. f_equal. exact Hcached.
    + exact (smlVersionsAt_sortSMLVersionsAt l w1).
  - intros w l w1 Hvs.
    pose proof (getAvailableBootstrapperVersions_cached _ _ _ Hvs) as Hcached.
    split.
    { unfold getLatestBootstrapperVersion, bind. rewrite Hvs. run.
      now rewrite bootstrapperVersionsAt_sortBootstrapperVersionsAt. }
    split; [exact Hcached|].
    intros t Hhit. split.
    + change getAvailableBootstrapperVersions with (access ABootstrapperVersions).
      rewrite (access_hit _ _ Hhit). f_equal. f_equal. exact Hcached.
    + exact (bootstrapperVersionsAt_sortBootstrapperVersionsAt l w1).
Qed.

End InPlace.

Lemma latest_sorts_cached_array_witness :
  map version (versionsAt 0%nat (snd (getModVersions "modB" Examples.start)))
  = ["1.0.0"; "1.2.0"; "1.1.0"] /\
  getModVersions "modB"
    (set_now 1000 (sortVersionsAt 0%nat (snd (getModVersions "modB" Examples.start))))
  = (Ok (VVersions 0%nat),
     set_now 1000 (sortVersionsAt 0%nat (snd (getModVersions "modB" Examples.start)))) /\
  map version
    (versionsAt 0%nat
       (set_now 1000 (sortVersionsAt 0%nat (snd (getModVersions "modB" Examples.start)))))
  = ["1.2.0"; "1.1.0"; "1.0.0"].
Proof.
  split; [reflexivity|].
  destruct (latest_sorts_cached_array) as [Hmod _].
  destruct (Hmod "modB" Examples.start 0%nat (snd (getModVersions "modB" Examples.start)))
    as (_ & _ & Hread); [reflexivity | reflexivity |].
  destruct (Hread 1000) as [Hhit Horder]; [reflexivity|].
  split; [exact Hhit|]. rewrite Horder. reflexivity.
Defined.

(** ** Matching version constraints *)

Section Matching.
Context `{Semver} `{Handlers}.






End Matching.



(** ** The overlay *)

Lemma NoDup_map_filter {A B} (f : A -> B) (p : A -> bool) (l : list A) :
  List.NoDup (map f l) -> List.NoDup (map f (List.filter p l)).
Proof.
  induction l as [|x l IH]; simpl; [auto|].
  intros Hnd. apply List.NoDup_cons_iff in Hnd as [Hx Hnd].
  destruct (p x); simpl; [|auto].
  apply List.NoDup_cons_iff. split; [|auto].
  intros Hin. apply Hx. apply in_map_iff in Hin as (y & E & Hy).
  apply in_map_iff. exists y. split; [exact E|]. now apply filter_In in Hy.
Qed.

Lemma NoDup_map_snoc {A B} (f : A -> B) (l : list A) (x : A) :
  List.NoDup (map f l) -> ~ In (f x) (map f l) -> List.NoDup (map f (l ++ [x])).
Proof.
  induction l as [|y l IH]; simpl; intros Hnd Hx.
  - constructor; [intros [] | constructor].
  - apply List.NoDup_cons_iff in Hnd as [Hy Hnd].
    apply List.NoDup_cons_iff. split.
    + rewrite in_map_iff. intros (z & E & Hz).
      apply in_app_or in Hz as [Hz|[<-|[]]].
      * apply Hy. apply in_map_iff. now exists z.
      * apply Hx. now left.
    + apply IH; [exact Hnd|]. intros Hin. apply Hx. now right.
Qed.

Lemma overlayUnique_frame (w w' : World) :
  tempMods w' = tempMods w -> versionArrays w' = versionArrays w ->
  overlayUnique w -> overlayUnique w'.
Proof.
  unfold overlayUnique, versionsAt. intros -> ->. auto.
Qed.

(** With the flag off the four mutators warn and change nothing else. *)
Lemma overlay_mutators_refused (w : World) :
  useTempMods w = false ->
  let refused := warn "Temporary mods are only available in debug mode" w in
  (forall m, addTempMod m w = refused) /\
  (forall v, addTempModVersion v w = refused) /\
  (forall modID, removeTempMod modID w = refused) /\
  (forall modID ver, removeTempModVersion modID ver w = refused) /\
  tempMods refused = tempMods w /\
  versionArrays refused = versionArrays w.
Proof.
  intros Hoff. unfold addTempMod, addTempModVersion, removeTempMod, removeTempModVersion.
  rewrite Hoff. repeat split.
Qed.

(** C5, as the code has it. The overlay keeps its identifiers unique when
    [addTempMod] is given a mod whose identifier the overlay does not hold
    yet and whose own version list has no duplicate, and when
    [addTempModVersion] is given a version the target mod does not list yet;
    the two removals and the switch of the flag keep them unique without
    condition. *)
Theorem overlay_uniqueness_preserved (w : World) :
  overlayUnique w ->
  (forall m, ~ In (id m) (map id (tempMods w)) ->
             List.NoDup (map version (versionsAt (versions m) w)) ->
             overlayUnique (addTempMod m w)) /\
  (forall v, (forall tempMod, findTempMod (mod_id v) w = Some tempMod ->
                              ~ In (version v)
                                  (map version (versionsAt (versions tempMod) w))) ->
             overlayUnique (addTempModVersion v w)) /\
  (forall modID, overlayUnique (removeTempMod modID w)) /\
  (forall modID ver, overlayUnique (removeTempModVersion modID ver w)) /\
  (forall enable, overlayUnique (setUseTempMods enable w)) /\
  (forall use, overlayUnique (getUseTempMods use w)).
Proof.
  intros Huniq. pose proof Huniq as [Hids Hvers].
  split; [|split; [|split; [|split; [|split]]]].
  - intros m Hfresh Hm. unfold addTempMod.
    destruct (useTempMods w); [|now apply (overlayUnique_frame w)].
    split; simpl.
    + now apply NoDup_map_snoc.
    + intros m' Hin. apply in_app_or in Hin as [Hin|[<-|[]]]; [now apply Hvers | exact Hm].
  - intros v Hnew. unfold addTempModVersion.
    destruct (useTempMods w); [|now apply (overlayUnique_frame w)].
    fold (findTempMod (mod_id v) w).
    destruct (findTempMod (mod_id v) w) as [tempMod|] eqn:Hfind; [|exact Huniq].
    split; simpl; [exact Hids|].
    intros m Hin. unfold versionsAt at 1. simpl.
    destruct (decide (versions tempMod = versions m)) as [E|Hne].
    + rewrite E, lookup_insert_eq. simpl. rewrite <- E.
      apply NoDup_map_snoc; [|now apply Hnew].
      apply Hvers. now apply findTempMod_Some in Hfind.
    + rewrite lookup_insert_ne by exact Hne. now apply Hvers.
  - intros modID. unfold removeTempMod.
    destruct (useTempMods w); [|now apply (overlayUnique_frame w)].
    split; simpl.
    + now apply NoDup_map_filter.
    + intros m Hin. apply filter_In in Hin as [Hin _]. now apply Hvers.
  - intros modID ver. unfold removeTempModVersion.
    destruct (useTempMods w); [|now apply (overlayUnique_frame w)].
    fold (findTempMod modID w).
    destruct (findTempMod modID w) as [tempMod|] eqn:Hfind; [|exact Huniq].
    split; simpl; [exact Hids|].
    intros m Hin. unfold versionsAt at 1. simpl.
    destruct (decide (versions tempMod = versions m)) as [E|Hne].
    + rewrite E, lookup_insert_eq. simpl. rewrite <- E.
      apply NoDup_map_filter. apply Hvers. now apply findTempMod_Some in Hfind.
    + rewrite lookup_insert_ne by exact Hne. now apply Hvers.
  - intros enable. unfold setUseTempMods. simpl.
    destruct enable; now apply (overlayUnique_frame w).
  - intros use. now apply (overlayUnique_frame w).
Qed.

Lemma overlay_uniqueness_preserved_witness :
  overlayUnique (addTempMod Examples.modA (setUseTempMods true Examples.start)) /\
  overlayUnique (removeTempMod "modA" (setUseTempMods true Examples.start)) /\
  let w := execAll [CSetUseTempMods true;
                    CNewVersions [Examples.releaseOf "modA" "0.1.0"];
                    CAddTempMod Examples.modA] Examples.start in
  tempMods w = [Examples.modA] /\
  overlayUnique (addTempMod (Examples.modOf "modC" 1%nat) w) /\
  overlayUnique (addTempModVersion (Examples.releaseOf "modA" "0.2.0") w) /\
  overlayUnique (removeTempModVersion "modA" "0.1.0" w).
Proof.
  assert (Hstart : overlayUnique (setUseTempMods true Examples.start)).
  { split; simpl; [constructor | intros m []]. }
  split; [|split].
  - apply (overlay_uniqueness_preserved _ Hstart).
    + simpl. intros [].
    + vm_compute. constructor.
  - apply (overlay_uniqueness_preserved _ Hstart).
  - cbv zeta.
    assert (Hw : overlayUnique
                   (execAll [CSetUseTempMods true;
                             CNewVersions [Examples.releaseOf "modA" "0.1.0"];
                             CAddTempMod Examples.modA] Examples.start)).
    { split.
      - vm_compute. constructor; [intros [] | constructor].
      - intros m [<-|[]]. vm_compute. constructor; [intros [] | constructor]. }
    split; [reflexivity|]. split; [|split].
    + apply (overlay_uniqueness_preserved _ Hw).
      * vm_compute. intros [E|[]]. discriminate E.
      * vm_compute. constructor.
    + apply (overlay_uniqueness_preserved _ Hw).
      intros tempMod Hfind. vm_compute in Hfind. injection Hfind as <-.
      vm_compute. intros [E|[]]. discriminate E.
    + apply (overlay_uniqueness_preserved _ Hw).
Defined.

(** C5 as it is stated fails: nothing in [addTempMod] or [addTempModVersion]
    looks for an identifier that is already there. Adding the same mod
    twice leaves two overlay mods with one identifier, and adding the same
    version twice leaves a version list with a duplicate. *)
Lemma overlay_duplicates :
  let twice := execAll [CSetUseTempMods true; CNewVersions [];
                        CAddTempMod Examples.modA; CAddTempMod Examples.modA]
                 Examples.start in
  let again := execAll [CSetUseTempMods true; CNewVersions [];
                        CAddTempMod Examples.modA;
                        CAddTempModVersion (Examples.releaseOf "modA" "1.0.0");
                        CAddTempModVersion (Examples.releaseOf "modA" "1.0.0")]
                 Examples.start in
  map id (tempMods twice) = ["modA"; "modA"] /\
  ~ overlayUnique twice /\
  map version (versionsAt 0%nat again) = ["1.0.0"; "1.0.0"] /\
  ~ overlayUnique again.
Proof.
  cbv zeta. split; [reflexivity|]. split; [|split; [reflexivity|]].
  - intros [Hids _]. vm_compute in Hids.
    apply List.NoDup_cons_iff in Hids as [Hin _]. apply Hin. now left.
  - intros [_ Hvers]. specialize (Hvers Examples.modA).
    assert (Hin : In Examples.modA
                    (tempMods (execAll [CSetUseTempMods true; CNewVersions [];
                        CAddTempMod Examples.modA;
                        CAddTempModVersion (Examples.releaseOf "modA" "1.0.0");
                        CAddTempModVersion (Examples.releaseOf "modA" "1.0.0")]
                       Examples.start))) by (vm_compute; now left).
    specialize (Hvers Hin). vm_compute in Hvers.
    apply List.NoDup_cons_iff in Hvers as [Hdup _]. apply Hdup. now left.
Qed.

(** ** The overlay behind a disabled flag *)

Lemma parseMods_fst (ms : list WireMod) (w : World) :
  fst (parseMods ms w) = Ok (parsedFrom (nextLoc w) ms).
Proof.
  revert w. induction ms as [|m ms IH]; intros w; simpl; [reflexivity|].
  unfold parseMod, newVersions. run.
  match goal with |- context [parseMods ms ?w1] => pose proof (IH w1) as IH1 end.
  destruct (parseMods ms _) as [[rest|e] w2]; simpl in *; [|discriminate].
  now injection IH1 as ->.
Qed.

Lemma parseMods_nextLoc (ms : list WireMod) (w w' : World) :
  nextLoc w = nextLoc w' -> fst (parseMods ms w) = fst (parseMods ms w').
Proof. intros Hloc. now rewrite !parseMods_fst, Hloc. Qed.

(** With the flag off, [getMod], [getModVersions] and [getAvailableMods]
    return what they would return in front of an empty overlay: these three
    look at the flag before they look at the overlay. *)
Lemma gated_queries_skip_overlay (w : World) (ms : list FicsitAppMod) :
  useTempMods w = false ->
  (forall modID, fst (getMod modID (set_tempMods ms w)) = fst (getMod modID w)) /\
  (forall modID, fst (getModVersions modID (set_tempMods ms w))
                 = fst (getModVersions modID w)) /\
  fst (getAvailableMods (set_tempMods ms w)) = fst (getAvailableMods w).
Proof.
  intros Hoff. split; [|split].
  - intros modID. unfold getMod. run.
    change (cooldownPassed ("getMod_" +:+ modID) (set_tempMods ms w))
      with (cooldownPassed ("getMod_" +:+ modID) w).
    destruct (cooldownPassed _ w); [|reflexivity].
    unfold fiscitApiQuery. simpl.
    destruct (outcome _) as [| | | |[resGetMod|]]; simpl; try reflexivity.
    rewrite Hoff. reflexivity.
  - intros modID. unfold getModVersions. run.
    change (cooldownPassed ("getModVersions_" +:+ modID) (set_tempMods ms w))
      with (cooldownPassed ("getModVersions_" +:+ modID) w).
    destruct (cooldownPassed _ w); [|reflexivity].
    unfold fiscitApiQuery. simpl.
    destruct (outcome _) as [| | | |[vs|]]; simpl; try reflexivity.
    rewrite Hoff. reflexivity.
  - unfold getAvailableMods. run.
    change (cooldownPassed "getAvailableMods" (set_tempMods ms w))
      with (cooldownPassed "getAvailableMods" w).
    destruct (cooldownPassed _ w); [|reflexivity].
    unfold fiscitApiQuery. simpl.
    destruct (outcome _) as [| | | |d]; simpl; try reflexivity.
    match goal with |- context [parseMods d ?a] =>
      pose proof (parseMods_fst d a) as Ha;
      pose proof (parseMods_frame d a) as (_ & Hua & _);
      destruct (parseMods d a) as [[r1|e1] w1]
    end; simpl in Ha, Hua; [|discriminate].
    match goal with |- context [parseMods d ?b] =>
      pose proof (parseMods_fst d b) as Hb;
      pose proof (parseMods_frame d b) as (_ & Hub & _);
      destruct (parseMods d b) as [[r2|e2] w2]
    end; simpl in Hb, Hub; [|discriminate].
    simpl. rewrite Hua, Hub, Hoff. unfold getCache, setCache. simpl.
    rewrite !lookup_insert_eq. simpl. congruence.
Qed.

(** C4 at the input on which the code departs from it. The overlay receives
    [modA] while the flag is on, then the flag is switched off. Asked for a
    download link the registry does not have, [getModDownloadLink] still
    looks into the overlay: the failure it raises is the one of a temporary
    mod, where an empty overlay gives the plain not-found failure. *)
Theorem getModDownloadLink_consults_disabled_overlay :
  let w := execAll [CSetUseTempMods true; CNewVersions []; CAddTempMod Examples.modA;
                    CSetUseTempMods false] Examples.start in
  useTempMods w = false /\
  map id (tempMods w) = ["modA"] /\
  fst (getModDownloadLink "modA" "1.0.0" w)
  = Throw (ModNotFoundError "modA@1.0.0 is a temporary mod. No download link available") /\
  fst (getModDownloadLink "modA" "1.0.0" (set_tempMods [] w))
  = Throw (ModNotFoundError "modA@1.0.0 not found").
Proof. cbv zeta. repeat split. Qed.

(** ** The floor under the loader versions *)

Section LoaderFloor.
Context `{Semver} `{Handlers}.

Lemma loaderInvariant_frame (w w' : World) :
  smlArrays w' = smlArrays w ->
  cachedFetch w' !! "getSMLVersions" = cachedFetch w !! "getSMLVersions" ->
  loaderInvariant w -> loaderInvariant w'.
Proof.
  unfold loaderInvariant, smlArraysFiltered, smlEntryTyped. intros -> ->. auto.
Qed.

Lemma loaderInvariant_init r t : loaderInvariant (init r t).
Proof.
  split.
  - intros l vs Hl. simpl in Hl. now rewrite lookup_empty in Hl.
  - intros entry He. simpl in He. now rewrite lookup_empty in He.
Qed.

Lemma smlVersionsAt_floor (w : World) (l : loc) :
  smlArraysFiltered w -> Forall (fun v => smlFloor v = true) (smlVersionsAt l w).
Proof.
  intros Hf. unfold smlVersionsAt.
  destruct (smlArrays w !! l) as [vs|] eqn:E; simpl; [now apply (Hf l) | constructor].
Qed.

Lemma floor_filtered (vs : list FicsitAppSMLVersion) :
  Forall (fun v => smlFloor v = true)
    (map (fun v => with_sml_date (toDate (sml_date v)) v)
       (List.filter (fun v => satisfies (sml_release v) ">=2.0.0") vs)).
Proof.
  apply List.Forall_forall. intros v Hv.
  apply in_map_iff in Hv as (v0 & <- & Hv0).
  apply filter_In in Hv0 as [_ Hsat]. exact Hsat.
Qed.

Lemma loaderInvariant_sort (l : loc) (w : World) :
  loaderInvariant w -> loaderInvariant (sortSMLVersionsAt l w).
Proof.
  intros [Hf Ht]. split; [|exact Ht].
  intros l' vs Hl. unfold sortSMLVersionsAt in Hl. simpl in Hl.
  destruct (decide (l = l')) as [<-|Hne].
  - rewrite lookup_insert_eq in Hl. injection Hl as <-.
    apply sort_Forall. now apply smlVersionsAt_floor.
  - rewrite lookup_insert_ne in Hl by exact Hne. now apply (Hf l').
Qed.

(** [getAvailableSMLVersions] keeps the invariant, and what it returns is
    an array of the store. *)
Lemma getAvailableSMLVersions_invariant (w : World) :
  loaderInvariant w ->
  loaderInvariant (snd (getAvailableSMLVersions w)) /\
  forall v w1, getAvailableSMLVersions w = (Ok v, w1) -> exists l, v = VSMLVersions l.
Proof.
  intros [Hf Ht]. unfold getAvailableSMLVersions. run.
  destruct (cooldownPassed "getSMLVersions" w) eqn:Hpassed.
  - unfold fiscitApiQuery.
    destruct (outcome _) as [| | | |d]; simpl;
      try (split; [now apply (loaderInvariant_frame w) | intros v w1 E; discriminate]).
    split.
    + split.
      * intros l vs Hl. simpl in Hl.
        destruct (decide (nextLoc w = l)) as [<-|Hne].
        -- rewrite lookup_insert_eq in Hl. injection Hl as <-. apply floor_filtered.
        -- rewrite lookup_insert_ne in Hl by exact Hne. now apply (Hf l).
      * intros entry He. simpl in He. rewrite lookup_insert_eq in He.
        injection He as <-. simpl. eauto.
    + intros v w1 E. injection E as <- _.
      unfold getCache, setCache. simpl. rewrite lookup_insert_eq. simpl. eauto.
  - split; [now split|].
    intros v w1 E. injection E as <- _.
    unfold cooldownPassed in Hpassed. unfold getCache.
    destruct (cachedFetch w !! "getSMLVersions") as [entry|] eqn:He; [|discriminate].
    now apply Ht.
Qed.

(** The other accessors leave the loader versions and their entry alone. *)
Lemma access_other_frame (a : Accessor) (w : World) :
  a <> ASMLVersions ->
  smlArrays (snd (access a w)) = smlArrays w /\
  cachedFetch (snd (access a w)) !! "getSMLVersions"
  = cachedFetch w !! "getSMLVersions".
Proof.
  intros Ha. destruct a; [| | | |congruence|]; simpl;
    [unfold getModDownloadLink | unfold getAvailableMods | unfold getMod
    | unfold getModVersions | unfold getAvailableBootstrapperVersions];
    run;
    match goal with |- context [cooldownPassed ?k w] => destruct (cooldownPassed k w) end;
    try (split; reflexivity);
    unfold fiscitApiQuery;
    match goal with |- context [outcome ?r] => destruct (outcome r) as [| | | |d] end;
    simpl; try (split; reflexivity).
  - destruct d as [[link|]|]; simpl;
      try (match goal with |- context [hasTempMod ?i ?w'] => destruct (hasTempMod i w') end;
           split; reflexivity).
    split; [reflexivity|]. now rewrite lookup_insert_ne by discriminate.
  - match goal with |- context [parseMods d ?w1] =>
      pose proof (parseMods_frame d w1) as ([res Hres] & _ & _ & Hc & Hs & _)
    end.
    destruct (parseMods d _) as [[ms|e] w2]; simpl in *; [|discriminate].
    split; [exact Hs|]. rewrite lookup_insert_ne by discriminate. now rewrite Hc.
  - destruct d as [resGetMod|]; simpl.
    + split; [reflexivity|]. now rewrite lookup_insert_ne by discriminate.
    + match goal with |- context [findTempMod ?i ?w'] => destruct (findTempMod i w') end;
        destruct (useTempMods w); split; reflexivity.
  - destruct d as [vs|]; simpl.
    + split; [reflexivity|]. now rewrite lookup_insert_ne by discriminate.
    + match goal with |- context [findTempMod ?i ?w'] => destruct (findTempMod i w') end;
        destruct (useTempMods w); split; reflexivity.
  - split; [reflexivity|]. now rewrite lookup_insert_ne by discriminate.
Qed.

Lemma access_invariant (a : Accessor) (w : World) :
  loaderInvariant w -> loaderInvariant (snd (access a w)).
Proof.
  intros Hinv. destruct a;
    try (apply (loaderInvariant_frame w);
         [apply access_other_frame; discriminate
         | apply access_other_frame; discriminate | exact Hinv]).
  now apply getAvailableSMLVersions_invariant.
Qed.

End LoaderFloor.

Section LoaderQueries.
Context `{Semver} `{Handlers}.

Lemma exec_invariant (c : Call) (w : World) :
  loaderInvariant w -> loaderInvariant (exec c w).
Proof.
  intros Hinv. destruct c; simpl.
  - unfold setUseTempMods. simpl. destruct enable; now apply (loaderInvariant_frame w).
  - now apply (loaderInvariant_frame w).
  - unfold addTempMod. destruct (useTempMods w); now apply (loaderInvariant_frame w).
  - unfold addTempModVersion.
    destruct (useTempMods w); [|now apply (loaderInvariant_frame w)].
    destruct (List.find _ _); [now apply (loaderInvariant_frame w) | exact Hinv].
  - unfold removeTempMod. destruct (useTempMods w); now apply (loaderInvariant_frame w).
  - unfold removeTempModVersion.
    destruct (useTempMods w); [|now apply (loaderInvariant_frame w)].
    destruct (List.find _ _); [now apply (loaderInvariant_frame w) | exact Hinv].
  - now apply access_invariant.
  - pose proof (access_invariant (AModVersions modID) w Hinv) as H1. simpl in H1.
    unfold getModLatestVersion, bind.
    destruct (getModVersions modID w) as [[v|e] w1]; simpl in *; [|exact H1].
    destruct v; simpl; exact H1.
  - pose proof (access_invariant (AMod modID) w Hinv) as H1. simpl in H1.
    unfold findVersionMatchingAll, bind.
    destruct (getMod modID w) as [[v|e] w1]; simpl in *; [|exact H1].
    destruct v; simpl; try exact H1. run.
    now destruct (fold_left _ _ _).
  - pose proof (access_invariant ASMLVersions w Hinv) as H1. simpl in H1.
    unfold getSMLVersionInfo, bind.
    destruct (getAvailableSMLVersions w) as [[v|e] w1]; simpl in *; [|exact H1].
    destruct v; simpl; exact H1.
  - pose proof (access_invariant ASMLVersions w Hinv) as H1. simpl in H1.
    unfold getLatestSMLVersion, bind.
    destruct (getAvailableSMLVersions w) as [[v|e] w1]; simpl in *; [|exact H1].
    destruct v; simpl; try exact H1. now apply loaderInvariant_sort.
  - pose proof (access_invariant ABootstrapperVersions w Hinv) as H1. simpl in H1.
    unfold getBootstrapperVersionInfo, bind.
    destruct (getAvailableBootstrapperVersions w) as [[v|e] w1]; simpl in *; [|exact H1].
    destruct v; simpl; exact H1.
  - pose proof (access_invariant ABootstrapperVersions w Hinv) as H1. simpl in H1.
    unfold getLatestBootstrapperVersion, bind.
    destruct (getAvailableBootstrapperVersions w) as [[v|e] w1]; simpl in *; [|exact H1].
    destruct v; simpl; exact H1.
  - unfold findAllVersionsMatchingAll.
    destruct (String.eqb modID SMLModID); [|destruct (String.eqb modID BootstrapperModID)].
    + pose proof (access_invariant ASMLVersions w Hinv) as H1. simpl in H1.
      unfold bind.
      destruct (getAvailableSMLVersions w) as [[v|e] w1]; simpl in *; [|exact H1].
      destruct v; simpl; exact H1.
    + pose proof (access_invariant ABootstrapperVersions w Hinv) as H1. simpl in H1.
      unfold bind.
      destruct (getAvailableBootstrapperVersions w) as [[v|e] w1]; simpl in *;
        [|exact H1].
      destruct v; simpl; exact H1.
    + pose proof (access_invariant (AMod modID) w Hinv) as H1. simpl in H1.
      unfold bind.
      destruct (getMod modID w) as [[v|e] w1]; simpl in *; [|exact H1].
      destruct v; simpl; exact H1.
  - now apply (loaderInvariant_frame w).
  - now apply (loaderInvariant_frame w).
Qed.

Lemma reachable_invariant (w : World) : reachable w -> loaderInvariant w.
Proof.
  intros (r & t & cs & ->). unfold execAll.
  generalize (loaderInvariant_init r t). generalize (init r t).
  induction cs as [|c cs IH]; intros w0 Hinv; simpl; [exact Hinv|].
  apply IH. now apply exec_invariant.
Qed.

(** C3. In every world a program reaches, and whatever the registry
    answers, the queries on loader versions return only versions that
    pass the floor [>=2.0.0] applied when the list is fetched:
    [getAvailableSMLVersions] returns an array of such versions,
    [getSMLVersionInfo] and [getLatestSMLVersion] return such a version,
    and every string the loader branch of [findAllVersionsMatchingAll]
    returns passes that floor (and, there, the floor [minSMLVersion] as
    well). The list the cache holds for the loader is always filtered. *)
Theorem loader_versions_above_floor (w : World) :
  reachable w ->
  (forall v w1, getAvailableSMLVersions w = (Ok v, w1) ->
     exists l, v = VSMLVersions l /\
               Forall (fun x => satisfies (sml_release x) ">=2.0.0" = true)
                 (smlVersionsAt l w1)) /\
  (forall ver r w1, getSMLVersionInfo ver w = (Ok (Some r), w1) ->
     satisfies (sml_release r) ">=2.0.0" = true) /\
  (forall r w1, getLatestSMLVersion w = (Ok (Some r), w1) ->
     satisfies (sml_release r) ">=2.0.0" = true) /\
  (forall cs vs w1, findAllVersionsMatchingAll SMLModID cs w = (Ok vs, w1) ->
     Forall (fun s => satisfies s ">=2.0.0" = true /\
                      satisfies s (">=" +:+ minSMLVersion) = true) vs) /\
  (forall entry, cachedFetch w !! "getSMLVersions" = Some entry ->
     exists l, data entry = VSMLVersions l /\
               Forall (fun x => satisfies (sml_release x) ">=2.0.0" = true)
                 (smlVersionsAt l w)).
Proof.
  intros Hreach. pose proof (reachable_invariant w Hreach) as Hinv.
  destruct (getAvailableSMLVersions_invariant w Hinv) as [Hinv1 Htyped].
  assert (Hlist : forall v w1, getAvailableSMLVersions w = (Ok v, w1) ->
            exists l, v = VSMLVersions l /\
                      Forall (fun x => smlFloor x = true) (smlVersionsAt l w1)).
  { intros v w1 E. destruct (Htyped v w1 E) as [l ->]. exists l. split; [reflexivity|].
    rewrite E in Hinv1. simpl in Hinv1. apply smlVersionsAt_floor.
    exact (proj1 Hinv1). }
  split; [exact Hlist|]. split; [|split; [|split]].
  - intros ver r w1. unfold getSMLVersionInfo, bind.
    destruct (getAvailableSMLVersions w) as [[v|e] w0] eqn:E; [|discriminate].
    destruct (Hlist v w0 eq_refl) as (l & -> & Hfloor). run.
    intros Hr. injection Hr as Hr <-.
    apply find_some in Hr as [Hin _].
    rewrite List.Forall_forall in Hfloor. now apply Hfloor.
  - intros r w1. unfold getLatestSMLVersion, bind.
    destruct (getAvailableSMLVersions w) as [[v|e] w0] eqn:E; [|discriminate].
    destruct (Hlist v w0 eq_refl) as (l & -> & Hfloor). run.
    rewrite smlVersionsAt_sortSMLVersionsAt. intros Hr. injection Hr as Hr _.
    apply (sort_Forall (newestFirst sml_release)) in Hfloor.
    destruct (sort (newestFirst sml_release) (smlVersionsAt l w0)) as [|r' s];
      [discriminate|].
    simpl in Hr. injection Hr as ->. now inversion Hfloor.
  - intros cs vs w1. unfold findAllVersionsMatchingAll.
    rewrite String.eqb_refl. unfold bind.
    destruct (getAvailableSMLVersions w) as [[v|e] w0] eqn:E; [|discriminate].
    destruct (Hlist v w0 eq_refl) as (l & -> & Hfloor). run.
    intros Hr. injection Hr as <- _.
    apply List.Forall_forall. intros s Hs.
    apply in_map_iff in Hs as (x & <- & Hx).
    apply filter_In in Hx as [Hx _]. apply filter_In in Hx as [Hx Hmin].
    rewrite List.Forall_forall in Hfloor. split; [now apply Hfloor | exact Hmin].
  - intros entry He. destruct Hinv as [Hf Ht].
    destruct (Ht entry He) as [l Hl]. exists l. split; [exact Hl|].
    now apply smlVersionsAt_floor.
Qed.

End LoaderQueries.

Lemma loader_versions_above_floor_witness :
  let w := execAll [CGetLatestSMLVersion; CClock 1000] Examples.start in
  fst (getLatestSMLVersion w) = Ok (Some (with_sml_date (DateObject "2020-05-01T10:00:00Z")
                                             (Examples.smlOf "2.2.0"))) /\
  satisfies "2.2.0" ">=2.0.0" = true /\
  fst (findAllVersionsMatchingAll "SML" ["<2.1.0"] w) = Ok ["2.0.0"] /\
  Forall (fun s => satisfies s ">=2.0.0" = true /\ satisfies s ">=2.0.0" = true) ["2.0.0"].
Proof.
  cbv zeta.
  assert (Hreach : reachable (execAll [CGetLatestSMLVersion; CClock 1000] Examples.start))
    by (exists Examples.registry, 0, [CGetLatestSMLVersion; CClock 1000]; reflexivity).
  destruct (loader_versions_above_floor _ Hreach) as (_ & _ & Hlatest & Hall & _).
  split; [reflexivity|]. split.
  - apply (Hlatest (with_sml_date (DateObject "2020-05-01T10:00:00Z")
                      (Examples.smlOf "2.2.0"))
             (snd (getLatestSMLVersion
                     (execAll [CGetLatestSMLVersion; CClock 1000] Examples.start)))).
    reflexivity.
  - split; [reflexivity|].
    apply (Hall ["<2.1.0"] ["2.0.0"]
             (snd (findAllVersionsMatchingAll "SML" ["<2.1.0"]
                     (execAll [CGetLatestSMLVersion; CClock 1000] Examples.start)))).
    reflexivity.
Defined.

(** ** The payloads of the cache have the kind of their key

    The accessors hand back [getCache requestID] as a value of their return
    type. The keys of two accessors of different kinds never coincide, so
    in every world a program reaches the payload under a key is of the kind
    the accessor of that key stores, and the branches of the model that
    stop on a payload of another kind are never taken. *)

Lemma requestID_kind (a a' : Accessor) (v : Value) :
  requestID a = requestID a' -> payloadKind a v -> payloadKind a' v.
Proof.
  destruct a, a'; simpl; intros E; try discriminate E; auto.
Qed.

Lemma cacheTyped_frame (w w' : World) :
  cachedFetch w' = cachedFetch w -> cacheTyped w -> cacheTyped w'.
Proof. unfold cacheTyped. intros ->. auto. Qed.

Lemma cacheTyped_setCache (a : Accessor) (v : Value) (w : World) :
  cacheTyped w -> payloadKind a v -> cacheTyped (setCache (requestID a) v w).
Proof.
  intros Ht Hv a' entry. unfold setCache. simpl.
  destruct (decide (requestID a = requestID a')) as [E|Hne].
  - rewrite E, lookup_insert_eq. intros He. injection He as <-. simpl.
    now apply (requestID_kind a).
  - rewrite lookup_insert_ne by exact Hne. apply Ht.
Qed.

Lemma cacheTyped_init r t : cacheTyped (init r t).
Proof. intros a entry He. simpl in He. now rewrite lookup_empty in He. Qed.

Section Typed.
Context `{Semver} `{Handlers}.

Lemma access_typed (a : Accessor) (w : World) :
  cacheTyped w ->
  cacheTyped (snd (access a w)) /\
  forall v w1, access a w = (Ok v, w1) -> payloadKind a v.
Proof.
  intros Ht.
  destruct (cooldownPassed (requestID a) w) eqn:Hpassed.
  2:{ rewrite (access_hit a w Hpassed). simpl. split; [exact Ht|].
      intros v w1 E. injection E as <- _.
      unfold cooldownPassed in Hpassed. unfold getCache.
      destruct (cachedFetch w !! requestID a) as [entry|] eqn:He; [|discriminate].
      now apply Ht. }
  destruct a; simpl in *;
    [unfold getModDownloadLink | unfold getAvailableMods | unfold getMod
    | unfold getModVersions | unfold getAvailableSMLVersions
    | unfold getAvailableBootstrapperVersions];
    run; rewrite Hpassed; unfold fiscitApiQuery;
    match goal with |- context [outcome ?r] => destruct (outcome r) as [| | | |d] end;
    simpl;
    try (split; [now apply (cacheTyped_frame w) | intros v w1 E; discriminate E]).
  - destruct d as [[link|]|]; simpl;
      try (match goal with |- context [hasTempMod ?i ?w'] => destruct (hasTempMod i w') end;
           simpl;
           (split; [now apply (cacheTyped_frame w) | intros v w1 E; discriminate E])).
    split.
    + apply (cacheTyped_setCache (AModDownloadLink modID ver)); [|exact I].
      now apply (cacheTyped_frame w).
    + intros v w1 E. injection E as <- _.
      unfold getCache, setCache. simpl. rewrite lookup_insert_eq. exact I.
  - match goal with |- context [parseMods d ?w1] =>
      pose proof (parseMods_frame d w1) as ([res Hres] & _ & _ & Hc & _)
    end.
    destruct (parseMods d _) as [[ms|e] w2]; simpl in *; [|discriminate].
    split.
    + apply (cacheTyped_setCache AAvailableMods); [|exact I].
      apply (cacheTyped_frame w); [exact Hc | exact Ht].
    + intros v w1 E. injection E as <- _.
      unfold getCache, setCache. simpl. rewrite lookup_insert_eq. exact I.
  - destruct d as [resGetMod|]; simpl.
    + split.
      * apply (cacheTyped_setCache (AMod modID)); [|exact I].
        now apply (cacheTyped_frame w).
      * intros v w1 E. injection E as <- _.
        unfold getCache, setCache. simpl. rewrite lookup_insert_eq. exact I.
    + match goal with |- context [findTempMod ?i ?w'] => destruct (findTempMod i w') end;
        destruct (useTempMods w); simpl;
        (split; [now apply (cacheTyped_frame w) | intros v w1 E; try discriminate E]).
      injection E as <- _. exact I.
  - destruct d as [vs|]; simpl.
    + split.
      * apply (cacheTyped_setCache (AModVersions modID)); [|exact I].
        now apply (cacheTyped_frame w).
      * intros v w1 E. injection E as <- _.
        unfold getCache, setCache. simpl. rewrite lookup_insert_eq. exact I.
    + match goal with |- context [findTempMod ?i ?w'] => destruct (findTempMod i w') end;
        destruct (useTempMods w); simpl;
        (split; [now apply (cacheTyped_frame w) | intros v w1 E; try discriminate E]).
      injection E as <- _. exact I.
  - split.
    + apply (cacheTyped_setCache ASMLVersions); [|exact I].
      now apply (cacheTyped_frame w).
    + intros v w1 E. injection E as <- _.
      unfold getCache, setCache. simpl. rewrite lookup_insert_eq. exact I.
  - split.
    + apply (cacheTyped_setCache ABootstrapperVersions); [|exact I].
      now apply (cacheTyped_frame w).
    + intros v w1 E. injection E as <- _.
      unfold getCache, setCache. simpl. rewrite lookup_insert_eq. exact I.
Qed.

Lemma exec_typed (c : Call) (w : World) : cacheTyped w -> cacheTyped (exec c w).
Proof.
  intros Ht.
  assert (Hacc : forall a, cacheTyped (snd (access a w)))
    by (intros a; now apply access_typed).
  destruct c; simpl.
  - unfold setUseTempMods. simpl. destruct enable; now apply (cacheTyped_frame w).
  - now apply (cacheTyped_frame w).
  - unfold addTempMod. destruct (useTempMods w); now apply (cacheTyped_frame w).
  - unfold addTempModVersion.
    destruct (useTempMods w); [|now apply (cacheTyped_frame w)].
    destruct (List.find _ _); [now apply (cacheTyped_frame w) | exact Ht].
  - unfold removeTempMod. destruct (useTempMods w); now apply (cacheTyped_frame w).
  - unfold removeTempModVersion.
    destruct (useTempMods w); [|now apply (cacheTyped_frame w)].
    destruct (List.find _ _); [now apply (cacheTyped_frame w) | exact Ht].
  - apply Hacc.
  - specialize (Hacc (AModVersions modID)). simpl in Hacc.
    unfold getModLatestVersion, bind.
    destruct (getModVersions modID w) as [[v|e] w1]; simpl in *; [|exact Hacc].
    destruct v; simpl; exact Hacc.
  - specialize (Hacc (AMod modID)). simpl in Hacc.
    unfold findVersionMatchingAll, bind.
    destruct (getMod modID w) as [[v|e] w1]; simpl in *; [|exact Hacc].
    destruct v; simpl; try exact Hacc. run.
    now destruct (fold_left _ _ _).
  - specialize (Hacc ASMLVersions). simpl in Hacc.
    unfold getSMLVersionInfo, bind.
    destruct (getAvailableSMLVersions w) as [[v|e] w1]; simpl in *; [|exact Hacc].
    destruct v; simpl; exact Hacc.
  - specialize (Hacc ASMLVersions). simpl in Hacc.
    unfold getLatestSMLVersion, bind.
    destruct (getAvailableSMLVersions w) as [[v|e] w1]; simpl in *; [|exact Hacc].
    destruct v; simpl; exact Hacc.
  - specialize (Hacc ABootstrapperVersions). simpl in Hacc.
    unfold getBootstrapperVersionInfo, bind.
    destruct (getAvailableBootstrapperVersions w) as [[v|e] w1]; simpl in *; [|exact Hacc].
    destruct v; simpl; exact Hacc.
  - specialize (Hacc ABootstrapperVersions). simpl in Hacc.
    unfold getLatestBootstrapperVersion, bind.
    destruct (getAvailableBootstrapperVersions w) as [[v|e] w1]; simpl in *; [|exact Hacc].
    destruct v; simpl; exact Hacc.
  - unfold findAllVersionsMatchingAll.
    destruct (String.eqb modID SMLModID); [|destruct (String.eqb modID BootstrapperModID)].
    + specialize (Hacc ASMLVersions). simpl in Hacc. unfold bind.
      destruct (getAvailableSMLVersions w) as [[v|e] w1]; simpl in *; [|exact Hacc].
      destruct v; simpl; exact Hacc.
    + specialize (Hacc ABootstrapperVersions). simpl in Hacc. unfold bind.
      destruct (getAvailableBootstrapperVersions w) as [[v|e] w1]; simpl in *;
        [|exact Hacc].
      destruct v; simpl; exact Hacc.
    + specialize (Hacc (AMod modID)). simpl in Hacc. unfold bind.
      destruct (getMod modID w) as [[v|e] w1]; simpl in *; [|exact Hacc].
      destruct v; simpl; exact Hacc.
  - now apply (cacheTyped_frame w).
  - now apply (cacheTyped_frame w).
Qed.

Lemma reachable_typed (w : World) : reachable w -> cacheTyped w.
Proof.
  intros (r & t & cs & ->). unfold execAll.
  generalize (cacheTyped_init r t). generalize (init r t).
  induction cs as [|c cs IH]; intros w0 Ht; simpl; [exact Ht|].
  apply IH. now apply exec_typed.
Qed.

(** What an accessor returns in a reachable world is of its kind. *)
Lemma reachable_access_kind (a : Accessor) (w w1 : World) (v : Value) :
  reachable w -> access a w = (Ok v, w1) -> payloadKind a v.
Proof.
  intros Hreach. apply access_typed. now apply reachable_typed.
Qed.

End Typed.

(** * Further properties of the registry client *)

(** ** What a fetch writes, and what it leaves alone *)

(** ** What parsing puts in the store *)

Lemma parseMods_store (ms : list WireMod) (w : World) :
  nextLoc (snd (parseMods ms w)) = (nextLoc w + length ms)%nat /\
  (forall l, (l < nextLoc w)%nat ->
             versionArrays (snd (parseMods ms w)) !! l = versionArrays w !! l) /\
  Forall2 (fun m wire => versionArrays (snd (parseMods ms w)) !! versions m
                         = Some (versions wire))
    (parsedFrom (nextLoc w) ms) ms.
Proof.
  revert w. induction ms as [|m ms IH]; intros w; simpl.
  - unfold ret. simpl. repeat split; [lia | constructor].
  - unfold parseMod, newVersions. run.
    match goal with |- context [parseMods ms ?w1] =>
      specialize (IH w1); revert IH; generalize (parseMods_frame ms w1)
    end.
    destruct (parseMods ms _) as [[rest|e] w2]; simpl;
      intros ([res Hres] & _) (Hnext & Hold & Hnew); [|discriminate].
    split; [lia|]. split.
    + intros l Hl. rewrite Hold by lia. now rewrite lookup_insert_ne by lia.
    + constructor; [|exact Hnew]. simpl.
      rewrite Hold by lia. now rewrite lookup_insert_eq.
Qed.

Lemma parsedFrom_ids (l : loc) (ms : list WireMod) :
  map id (map (fun m => with_last_version_date (toDate (last_version_date m)) m)
            (parsedFrom l ms))
  = map id ms /\
  map last_version_date
    (map (fun m => with_last_version_date (toDate (last_version_date m)) m)
       (parsedFrom l ms))
  = map (fun m => toDate (last_version_date m)) ms.
Proof.
  revert l. induction ms as [|m ms IH]; intros l; simpl; [now split|].
  destruct (IH (S l)) as [-> ->]. now split.
Qed.

Section Fetching.
Context `{Semver} `{Handlers}.

Lemma entry_served (a : Accessor) (w : World) (t : Z) (v : Value) :
  cachedFetch w !! requestID a = Some {| time := t; data := v |} ->
  now w - t <= fetchCooldown ->
  access a w = (Ok v, w).
Proof.
  intros He Hage. rewrite access_hit.
  - unfold getCache. now rewrite He.
  - unfold cooldownPassed. rewrite He. simpl. now apply Z.ltb_ge.
Qed.

Ltac cached :=
  unfold getCache, setCache; simpl; rewrite ?lookup_insert_eq; simpl; repeat split.

Lemma live_answer_run (a : Accessor) (w : World) :
  cooldownPassed (requestID a) w = true ->
  liveAnswer a w = true ->
  exists v w1,
    access a w = (Ok v, w1) /\
    cachedFetch w1
    = <[requestID a := {| time := now w + replyElapsed a w; data := v |}]> (cachedFetch w) /\
    now w1 = now w + replyElapsed a w /\
    sent w1 = S (sent w).
Proof.
  intros Hpassed Hlive.
  destruct a; simpl in *;
    [unfold getModDownloadLink | unfold getAvailableMods | unfold getMod
    | unfold getModVersions | unfold getAvailableSMLVersions
    | unfold getAvailableBootstrapperVersions];
    run; rewrite Hpassed; unfold fiscitApiQuery;
    match goal with |- context [outcome ?r] => destruct (outcome r) as [| | | |d] end;
    try discriminate Hlive; simpl.
  - destruct d as [[link|]|]; try discriminate Hlive. simpl.
    eexists _, _. split; [reflexivity|]. cached.
  - match goal with |- context [parseMods d ?w1] =>
      pose proof (parseMods_frame d w1) as
        ([res Hres] & _ & _ & Hc & _ & _ & Hnow & Hsent & _)
    end.
    destruct (parseMods d _) as [[ms|e] w2]; simpl in *; [|discriminate].
    eexists _, _. split; [reflexivity|].
    unfold getCache, setCache; simpl. rewrite ?lookup_insert_eq, ?Hc, ?Hnow, ?Hsent. simpl.
    repeat split.
  - destruct d as [resGetMod|]; try discriminate Hlive. simpl.
    eexists _, _. split; [reflexivity|]. cached.
  - destruct d as [vs|]; try discriminate Hlive. simpl.
    eexists _, _. split; [reflexivity|]. cached.
  - eexists _, _. split; [reflexivity|]. cached.
  - eexists _, _. split; [reflexivity|]. cached.
Qed.

(** What a live answer puts in the accessor's hands. *)
Lemma live_answer_value (a : Accessor) (w w1 : World) (v : Value) :
  cooldownPassed (requestID a) w = true ->
  liveAnswer a w = true ->
  access a w = (Ok v, w1) ->
  holdsAnswer a w v w1.
Proof.
  intros Hpassed Hlive.
  destruct a; simpl in *;
    [unfold getModDownloadLink | unfold getAvailableMods | unfold getMod
    | unfold getModVersions | unfold getAvailableSMLVersions
    | unfold getAvailableBootstrapperVersions];
    run; rewrite Hpassed; unfold fiscitApiQuery;
    match goal with |- context [outcome ?r] => destruct (outcome r) as [| | | |d] eqn:Hreply end;
    try discriminate Hlive; simpl.
  - destruct d as [[link|]|]; try discriminate Hlive. simpl.
    intros E. injection E as <- <-. exists link. split; [reflexivity|].
    unfold getCache, setCache. simpl. now rewrite lookup_insert_eq.
  - match goal with |- context [parseMods d ?w0] =>
      pose proof (parseMods_fst d w0) as Hfst;
      pose proof (parseMods_frame d w0) as (_ & Hu & Ht & _);
      pose proof (parseMods_store d w0) as (_ & _ & Hstore)
    end.
    destruct (parseMods d _) as [[res|e] w2]; simpl in *; [|discriminate].
    injection Hfst as ->. rewrite Hu, Ht.
    intros E. injection E as <- <-.
    exists d, (map (fun m => with_last_version_date (toDate (last_version_date m)) m)
                 (parsedFrom (nextLoc w) d)).
    split; [reflexivity|]. split.
    { unfold getCache, setCache. simpl. rewrite lookup_insert_eq. simpl.
      destruct (useTempMods w); [reflexivity|]. now rewrite app_nil_r. }
    destruct (parsedFrom_ids (nextLoc w) d) as [Hids Hdates].
    split; [exact Hids|]. split; [exact Hdates|].
    simpl. clear -Hstore. unfold versionsAt.
    induction Hstore as [|m wire ms wires Hm _ IH]; simpl; constructor; [|exact IH].
    simpl. now rewrite Hm.
  - destruct d as [resGetMod|]; try discriminate Hlive. simpl.
    intros E. injection E as <- <-. exists resGetMod, (nextLoc w).
    split; [reflexivity|]. split.
    + unfold getCache, setCache. simpl. now rewrite lookup_insert_eq.
    + unfold versionsAt. simpl. now rewrite lookup_insert_eq.
  - destruct d as [vs|]; try discriminate Hlive. simpl.
    intros E. injection E as <- <-. exists vs, (nextLoc w).
    split; [reflexivity|]. split.
    + unfold getCache, setCache. simpl. now rewrite lookup_insert_eq.
    + unfold versionsAt. simpl. now rewrite lookup_insert_eq.
  - intros E. injection E as <- <-. exists d, (nextLoc w).
    split; [reflexivity|]. split.
    + unfold getCache, setCache. simpl. now rewrite lookup_insert_eq.
    + unfold smlVersionsAt. simpl. now rewrite lookup_insert_eq.
  - intros E. injection E as <- <-. exists d, (nextLoc w).
    split; [reflexivity|]. split.
    + unfold getCache, setCache. simpl. now rewrite lookup_insert_eq.
    + unfold bootstrapperVersionsAt. simpl. now rewrite lookup_insert_eq.
Qed.

(** X1. When an accessor has no fresh entry and the registry answers with
    what was asked for, the call returns that answer (the link behind the
    API address, the mod, the list, as [holdsAnswer] spells out for each
    accessor), issues one request, and stores the answer under its key
    with the time at which the answer arrived. From then on, in any world
    that still holds that entry and whose clock is at most five minutes
    later, the same call returns the same value and changes nothing: no
    second request goes out. *)
Theorem live_answer_cached_and_reused (a : Accessor) (w : World) :
  cooldownPassed (requestID a) w = true ->
  liveAnswer a w = true ->
  exists v w1,
    access a w = (Ok v, w1) /\
    holdsAnswer a w v w1 /\
    cachedFetch w1 !! requestID a = Some {| time := now w1; data := v |} /\
    now w1 = now w + replyElapsed a w /\
    sent w1 = S (sent w) /\
    forall w2, cachedFetch w2 !! requestID a = cachedFetch w1 !! requestID a ->
               now w2 - now w1 <= fetchCooldown ->
               access a w2 = (Ok v, w2).
Proof.
  intros Hpassed Hlive.
  destruct (live_answer_run a w Hpassed Hlive) as (v & w1 & Hrun & Hc & Hnow & Hsent).
  exists v, w1. split; [exact Hrun|].
  split; [now apply live_answer_value|].
  assert (He : cachedFetch w1 !! requestID a = Some {| time := now w1; data := v |})
    by (rewrite Hc, Hnow; apply lookup_insert_eq).
  repeat split; auto.
  intros w2 Hsame Hage. apply (entry_served a w2 (now w1) v); [|exact Hage].
  now rewrite Hsame.
Qed.

(** X2. When an accessor has no fresh entry and the registry does not answer
    with what was asked for (the transport fails, the body carries no data,
    or the registry reports no such mod or version), the call writes
    nothing: cache, overlay, arrays and warnings are as before; only the
    clock and the count of requests move. It then throws, or hands back an
    overlay record. *)
Theorem no_live_answer_writes_nothing (a : Accessor) (w : World) :
  cooldownPassed (requestID a) w = true ->
  liveAnswer a w = false ->
  sameButClock w (snd (access a w)) /\
  sent (snd (access a w)) = S (sent w) /\
  now (snd (access a w)) = now w + replyElapsed a w /\
  (thrown (fst (access a w)) = None ->
   useTempMods w = true /\
   exists tempMod,
     In tempMod (tempMods w) /\
     ((a = AMod (id tempMod) /\ fst (access a w) = Ok (VMod tempMod)) \/
      (a = AModVersions (id tempMod) /\
       fst (access a w) = Ok (VVersions (versions tempMod))))).
Proof.
  intros Hpassed Hlive.
  destruct a; simpl in *;
    [unfold getModDownloadLink | unfold getAvailableMods | unfold getMod
    | unfold getModVersions | unfold getAvailableSMLVersions
    | unfold getAvailableBootstrapperVersions];
    run; rewrite Hpassed; unfold fiscitApiQuery;
    match goal with |- context [outcome ?r] => destruct (outcome r) as [| | | |d] end;
    try discriminate Hlive; simpl;
    try (split; [repeat split | split; [reflexivity | split; [reflexivity | discriminate]]]).
  - destruct d as [[link|]|]; try discriminate Hlive; simpl;
      match goal with |- context [hasTempMod ?i ?w'] => destruct (hasTempMod i w') end;
      simpl;
      (split; [repeat split | split; [reflexivity | split; [reflexivity | discriminate]]]).
  - destruct d as [resGetMod|]; try discriminate Hlive. simpl.
    change (findTempMod modID _) with (findTempMod modID w).
    destruct (useTempMods w) eqn:Hon, (findTempMod modID w) as [tempMod|] eqn:Hfind;
      simpl;
      (split; [repeat split | split; [reflexivity | split; [reflexivity |]]]);
      try discriminate.
    intros _. split; [reflexivity|]. exists tempMod.
    apply findTempMod_Some in Hfind as [Hin <-]. split; [exact Hin|]. left. now split.
  - destruct d as [vs|]; try discriminate Hlive. simpl.
    change (findTempMod modID _) with (findTempMod modID w).
    destruct (useTempMods w) eqn:Hon, (findTempMod modID w) as [tempMod|] eqn:Hfind;
      simpl;
      (split; [repeat split | split; [reflexivity | split; [reflexivity |]]]);
      try discriminate.
    intros _. split; [reflexivity|]. exists tempMod.
    apply findTempMod_Some in Hfind as [Hin <-]. split; [exact Hin|]. right. now split.
Qed.

End Fetching.

Lemma live_answer_cached_and_reused_witness :
  exists v w1,
    access (AModDownloadLink "modB" "1.0.0") Examples.start = (Ok v, w1) /\
    holdsAnswer (AModDownloadLink "modB" "1.0.0") Examples.start v w1 /\
    cachedFetch w1 !! "getModDownloadLink_modB_1.0.0"
    = Some {| time := now w1; data := v |} /\
    now w1 = 0 + 10 /\
    sent w1 = 1%nat /\
    forall w2, cachedFetch w2 !! "getModDownloadLink_modB_1.0.0"
               = cachedFetch w1 !! "getModDownloadLink_modB_1.0.0" ->
               now w2 - now w1 <= fetchCooldown ->
               access (AModDownloadLink "modB" "1.0.0") w2 = (Ok v, w2).
Proof.
  apply (live_answer_cached_and_reused (AModDownloadLink "modB" "1.0.0") Examples.start);
    reflexivity.
Defined.

Lemma no_live_answer_writes_nothing_witness :
  sameButClock Examples.start (snd (access (AMod "modA") Examples.start)) /\
  sent (snd (access (AMod "modA") Examples.start)) = 1%nat /\
  now (snd (access (AMod "modA") Examples.start)) = 0 + 10 /\
  (thrown (fst (access (AMod "modA") Examples.start)) = None ->
   useTempMods Examples.start = true /\
   exists tempMod,
     In tempMod (tempMods Examples.start) /\
     ((AMod "modA" = AMod (id tempMod) /\
       fst (access (AMod "modA") Examples.start) = Ok (VMod tempMod)) \/
      (AMod "modA" = AModVersions (id tempMod) /\
       fst (access (AMod "modA") Examples.start) = Ok (VVersions (versions tempMod))))).
Proof.
  apply (no_live_answer_writes_nothing (AMod "modA") Examples.start); reflexivity.
Defined.

(** ** Every call goes through one accessor *)

Section Through.
Context `{Semver} `{Handlers}.

(** A call that goes through an accessor fails as the accessor fails, and
    stops there. *)
Lemma call_throw (c : Call) (a : Accessor) (w w1 : World) (e : Exn) :
  accessorOf c = Some a ->
  access a w = (Throw e, w1) ->
  thrownBy c w = Some e /\ exec c w = w1.
Proof.
  destruct c; simpl; intros E Hacc; try discriminate E; injection E as <-.
  - now rewrite Hacc.
  - simpl in Hacc. unfold getModLatestVersion, bind. now rewrite Hacc.
  - simpl in Hacc. unfold findVersionMatchingAll, bind. now rewrite Hacc.
  - simpl in Hacc. unfold getSMLVersionInfo, bind. now rewrite Hacc.
  - simpl in Hacc. unfold getLatestSMLVersion, bind. now rewrite Hacc.
  - simpl in Hacc. unfold getBootstrapperVersionInfo, bind. now rewrite Hacc.
  - simpl in Hacc. unfold getLatestBootstrapperVersion, bind. now rewrite Hacc.
  - unfold findAllVersionsMatchingAll.
    destruct (String.eqb modID SMLModID); [|destruct (String.eqb modID BootstrapperModID)];
      simpl in Hacc; unfold bind; now rewrite Hacc.
Qed.

(** After the accessor returned, a call issues no request and writes no
    entry, and the clock is not read again. *)
Lemma call_ok (c : Call) (a : Accessor) (w w1 : World) (v : Value) :
  accessorOf c = Some a ->
  access a w = (Ok v, w1) ->
  sent (exec c w) = sent w1 /\ cachedFetch (exec c w) = cachedFetch w1 /\
  now (exec c w) = now w1 /\ tempMods (exec c w) = tempMods w1 /\
  useTempMods (exec c w) = useTempMods w1.
Proof.
  destruct c; simpl; intros E Hacc; try discriminate E; injection E as <-.
  - now rewrite Hacc.
  - simpl in Hacc. unfold getModLatestVersion, bind. rewrite Hacc.
    destruct v; simpl; repeat split.
  - simpl in Hacc. unfold findVersionMatchingAll, bind. rewrite Hacc.
    destruct v; simpl; repeat split; run; now destruct (fold_left _ _ _).
  - simpl in Hacc. unfold getSMLVersionInfo, bind. rewrite Hacc.
    destruct v; simpl; repeat split.
  - simpl in Hacc. unfold getLatestSMLVersion, bind. rewrite Hacc.
    destruct v; simpl; repeat split.
  - simpl in Hacc. unfold getBootstrapperVersionInfo, bind. rewrite Hacc.
    destruct v; simpl; repeat split.
  - simpl in Hacc. unfold getLatestBootstrapperVersion, bind. rewrite Hacc.
    destruct v; simpl; repeat split.
  - unfold findAllVersionsMatchingAll.
    destruct (String.eqb modID SMLModID); [|destruct (String.eqb modID BootstrapperModID)];
      simpl in Hacc; unfold bind; rewrite Hacc; destruct v; simpl; repeat split.
Qed.

(** A call that goes through no accessor touches neither the cache nor
    the count of requests. *)
Lemma call_local (c : Call) (w : World) :
  accessorOf c = None ->
  sent (exec c w) = sent w /\ cachedFetch (exec c w) = cachedFetch w.
Proof.
  destruct c; simpl; intros E; try discriminate E.
  - unfold setUseTempMods. simpl. now destruct enable.
  - now split.
  - unfold addTempMod. now destruct (useTempMods w).
  - unfold addTempModVersion. destruct (useTempMods w); [|now split].
    now destruct (List.find _ _).
  - unfold removeTempMod. now destruct (useTempMods w).
  - unfold removeTempModVersion. destruct (useTempMods w); [|now split].
    now destruct (List.find _ _).
  - now split.
  - now split.
Qed.

Lemma access_reply_failure (a : Accessor) (w : World) :
  cooldownPassed (requestID a) w = true ->
  (replyKind a w = ReplyFailed ->
   fst (access a w) = Throw (Error "Network error. Please try again later.")) /\
  (replyKind a w = ReplyNoData -> fst (access a w) = Throw TypeError).
Proof.
  intros Hpassed.
  destruct a; simpl in *;
    [unfold getModDownloadLink | unfold getAvailableMods | unfold getMod
    | unfold getModVersions | unfold getAvailableSMLVersions
    | unfold getAvailableBootstrapperVersions];
    run; rewrite Hpassed; unfold fiscitApiQuery;
    match goal with |- context [outcome ?r] => destruct (outcome r) as [| | | |d] end;
    simpl; split; intros E; try discriminate E; reflexivity.
Qed.

(** X3. Whatever the operation (an accessor, a latest-version or
    version-info query, a constraint search), when it has to ask the
    registry and the transport fails, it throws the network error built by
    the query executor, unchanged. *)
Theorem transport_failure_is_thrown (c : Call) (a : Accessor) (w : World) :
  accessorOf c = Some a ->
  cooldownPassed (requestID a) w = true ->
  replyKind a w = ReplyFailed ->
  thrownBy c w = Some (Error "Network error. Please try again later.").
Proof.
  intros Hc Hpassed Hreply.
  destruct (access_reply_failure a w Hpassed) as [Hfail _].
  specialize (Hfail Hreply).
  destruct (access a w) as [[v|e] w1] eqn:Hacc; simpl in Hfail; [discriminate|].
  injection Hfail as ->.
  now destruct (call_throw c a w w1 _ Hc Hacc).
Qed.

(** X4. When the registry answers with a well-formed body that has no
    [data] member (what a GraphQL server sends with its own error list),
    the executor returns [undefined] and every operation that asked fails
    with a [TypeError] on reading [res.errors]: the registry's error list
    never reaches the caller. *)
Theorem missing_data_is_a_type_error (c : Call) (a : Accessor) (w : World) :
  accessorOf c = Some a ->
  cooldownPassed (requestID a) w = true ->
  replyKind a w = ReplyNoData ->
  thrownBy c w = Some TypeError.
Proof.
  intros Hc Hpassed Hreply.
  destruct (access_reply_failure a w Hpassed) as [_ Hnodata].
  specialize (Hnodata Hreply).
  destruct (access a w) as [[v|e] w1] eqn:Hacc; simpl in Hnodata; [discriminate|].
  injection Hnodata as ->.
  now destruct (call_throw c a w w1 _ Hc Hacc).
Qed.

(** X5. A call issues exactly one request when it goes through an accessor
    whose key has no fresh entry, and no request otherwise: never two, and
    none at all on a cache hit or in the overlay functions. *)
Theorem requests_per_call (c : Call) (w : World) :
  sent (exec c w)
  = match accessorOf c with
    | Some a => if cooldownPassed (requestID a) w then S (sent w) else sent w
    | None => sent w
    end.
Proof.
  destruct (accessorOf c) as [a|] eqn:Hc; [|now apply call_local].
  assert (Hsent : sent (snd (access a w))
                  = if cooldownPassed (requestID a) w then S (sent w) else sent w).
  { destruct (cooldownPassed (requestID a) w) eqn:Hpassed.
    - now apply access_miss_sent.
    - now rewrite (access_hit a w Hpassed). }
  destruct (access a w) as [[v|e] w1] eqn:Hacc; simpl in Hsent.
  - destruct (call_ok c a w w1 v Hc Hacc) as [-> _]. exact Hsent.
  - destruct (call_throw c a w w1 e Hc Hacc) as [_ ->]. exact Hsent.
Qed.

End Through.

Lemma transport_failure_is_thrown_witness :
  thrownBy (CGetModLatestVersion "modB") (init Examples.offline 0)
  = Some (Error "Network error. Please try again later.").
Proof.
  apply (transport_failure_is_thrown (CGetModLatestVersion "modB") (AModVersions "modB")
           (init Examples.offline 0)); reflexivity.
Defined.

Lemma missing_data_is_a_type_error_witness :
  thrownBy (CFindAllVersionsMatchingAll "SML" []) (init Examples.silent 0)
  = Some TypeError.
Proof.
  apply (missing_data_is_a_type_error (CFindAllVersionsMatchingAll "SML" []) ASMLVersions
           (init Examples.silent 0)); reflexivity.
Defined.

(** ** The cache only grows, one key at a time *)

Section CacheFrame.
Context `{Semver} `{Handlers}.

Lemma access_cache_effect (a : Accessor) (w : World) :
  cachedFetch (snd (access a w)) = cachedFetch w \/
  exists entry, cachedFetch (snd (access a w)) = <[requestID a := entry]> (cachedFetch w).
Proof.
  destruct (cooldownPassed (requestID a) w) eqn:Hpassed.
  2:{ left. now rewrite (access_hit a w Hpassed). }
  destruct (liveAnswer a w) eqn:Hlive.
  { right. destruct (live_answer_run a w Hpassed Hlive) as (v & w1 & Hrun & Hc & _).
    rewrite Hrun. simpl. eauto. }
  left.
  destruct a; simpl in *;
    [unfold getModDownloadLink | unfold getAvailableMods | unfold getMod
    | unfold getModVersions | unfold getAvailableSMLVersions
    | unfold getAvailableBootstrapperVersions];
    run; rewrite Hpassed; unfold fiscitApiQuery;
    match goal with |- context [outcome ?r] => destruct (outcome r) as [| | | |d] end;
    try discriminate Hlive; simpl; try reflexivity.
  - destruct d as [[link|]|]; try discriminate Hlive; simpl;
      match goal with |- context [hasTempMod ?i ?w'] => destruct (hasTempMod i w') end;
      reflexivity.
  - destruct d as [resGetMod|]; try discriminate Hlive. simpl.
    match goal with |- context [findTempMod ?i ?w'] => destruct (findTempMod i w') end;
      destruct (useTempMods w); reflexivity.
  - destruct d as [vs|]; try discriminate Hlive. simpl.
    match goal with |- context [findTempMod ?i ?w'] => destruct (findTempMod i w') end;
      destruct (useTempMods w); reflexivity.
Qed.

Lemma exec_cache_effect (c : Call) (w : World) :
  cachedFetch (exec c w) = cachedFetch w \/
  exists a entry, accessorOf c = Some a /\
                  cachedFetch (exec c w) = <[requestID a := entry]> (cachedFetch w).
Proof.
  destruct (accessorOf c) as [a|] eqn:Hc; [|left; now apply call_local].
  assert (Hcache : cachedFetch (exec c w) = cachedFetch (snd (access a w))).
  { destruct (access a w) as [[v|e] w1] eqn:Hacc; simpl.
    - now destruct (call_ok c a w w1 v Hc Hacc) as (_ & -> & _).
    - now destruct (call_throw c a w w1 e Hc Hacc) as [_ ->]. }
  rewrite Hcache.
  destruct (access_cache_effect a w) as [E | [entry E]]; [now left|].
  right. exists a, entry. now split.
Qed.

(** X6. No call ever removes a cache entry (stale entries stay until they
    are overwritten), and a call leaves every entry alone but the one under
    the key of the accessor it goes through: overlay changes, clock changes
    and requests for other keys never invalidate or alter a cached answer. *)
Theorem cache_grows_one_key_at_a_time (c : Call) (w : World) (k : string) :
  (is_Some (cachedFetch w !! k) -> is_Some (cachedFetch (exec c w) !! k)) /\
  ((forall a, accessorOf c = Some a -> requestID a <> k) ->
   cachedFetch (exec c w) !! k = cachedFetch w !! k).
Proof.
  destruct (exec_cache_effect c w) as [E | (a & entry & Ha & E)]; rewrite E.
  - split; auto.
  - split.
    + intros Hk. destruct (decide (requestID a = k)) as [<-|Hne].
      * rewrite lookup_insert_eq. eauto.
      * now rewrite lookup_insert_ne.
    + intros Hother. rewrite lookup_insert_ne; [reflexivity|]. now apply Hother.
Qed.

End CacheFrame.

Lemma cache_grows_one_key_at_a_time_witness :
  let w := execAll [CAccess AAvailableMods; CClock 400000] Examples.start in
  is_Some (cachedFetch (exec (CRemoveTempMod "modB") w) !! "getAvailableMods") /\
  cachedFetch (exec (CGetModLatestVersion "modB") w) !! "getAvailableMods"
  = cachedFetch w !! "getAvailableMods".
Proof.
  cbv zeta. split.
  - apply (cache_grows_one_key_at_a_time (CRemoveTempMod "modB")
             (execAll [CAccess AAvailableMods; CClock 400000] Examples.start)
             "getAvailableMods").
    vm_compute. eauto.
  - apply (cache_grows_one_key_at_a_time (CGetModLatestVersion "modB")
             (execAll [CAccess AAvailableMods; CClock 400000] Examples.start)
             "getAvailableMods").
    intros a Ha. injection Ha as <-. discriminate.
Defined.

(** ** Arrays built from a response *)

Section FreshArrays.
Context `{Semver} `{Handlers}.

(** X7. A fetch builds new arrays and never touches an array that existed
    before the call: whatever an accessor does, the arrays of versions,
    loader versions and bootstrapper versions handed out earlier keep
    their content. *)
Theorem fetch_leaves_older_arrays_alone (a : Accessor) (w : World) (l : loc) :
  (l < nextLoc w)%nat ->
  versionsAt l (snd (access a w)) = versionsAt l w /\
  smlVersionsAt l (snd (access a w)) = smlVersionsAt l w /\
  bootstrapperVersionsAt l (snd (access a w)) = bootstrapperVersionsAt l w /\
  (nextLoc w <= nextLoc (snd (access a w)))%nat.
Proof.
  intros Hl. unfold versionsAt, smlVersionsAt, bootstrapperVersionsAt.
  destruct (cooldownPassed (requestID a) w) eqn:Hpassed.
  2:{ rewrite (access_hit a w Hpassed). simpl. repeat split. lia. }
  destruct a; simpl in *;
    [unfold getModDownloadLink | unfold getAvailableMods | unfold getMod
    | unfold getModVersions | unfold getAvailableSMLVersions
    | unfold getAvailableBootstrapperVersions];
    run; rewrite Hpassed; unfold fiscitApiQuery;
    match goal with |- context [outcome ?r] => destruct (outcome r) as [| | | |d] end;
    simpl; try (repeat split; lia).
  - destruct d as [[link|]|]; simpl;
      try (match goal with |- context [hasTempMod ?i ?w'] => destruct (hasTempMod i w') end);
      simpl; repeat split; lia.
  - match goal with |- context [parseMods d ?w1] =>
      pose proof (parseMods_frame d w1) as ([res Hres] & _ & _ & _ & Hs & Hb & _);
      pose proof (parseMods_store d w1) as (Hnext & Hold & _)
    end.
    destruct (parseMods d _) as [[ms|e] w2]; simpl in *; [|discriminate].
    rewrite Hold, Hs, Hb by exact Hl. repeat split. lia.
  - destruct d as [resGetMod|]; simpl.
    + rewrite lookup_insert_ne by lia. repeat split. lia.
    + match goal with |- context [findTempMod ?i ?w'] => destruct (findTempMod i w') end;
        destruct (useTempMods w); simpl; repeat split; lia.
  - destruct d as [vs|]; simpl.
    + rewrite lookup_insert_ne by lia. repeat split. lia.
    + match goal with |- context [findTempMod ?i ?w'] => destruct (findTempMod i w') end;
        destruct (useTempMods w); simpl; repeat split; lia.
  - rewrite lookup_insert_ne by lia. repeat split. lia.
  - rewrite lookup_insert_ne by lia. repeat split. lia.
Qed.

End FreshArrays.

Lemma fetch_leaves_older_arrays_alone_witness :
  let w := execAll [CAccess (AModVersions "modB"); CClock 400000] Examples.start in
  versionsAt 0%nat (snd (access (AModVersions "modB") w)) = versionsAt 0%nat w /\
  smlVersionsAt 0%nat (snd (access (AModVersions "modB") w)) = smlVersionsAt 0%nat w /\
  bootstrapperVersionsAt 0%nat (snd (access (AModVersions "modB") w))
  = bootstrapperVersionsAt 0%nat w /\
  (nextLoc w <= nextLoc (snd (access (AModVersions "modB") w)))%nat.
Proof.
  cbv zeta.
  apply (fetch_leaves_older_arrays_alone (AModVersions "modB")
           (execAll [CAccess (AModVersions "modB"); CClock 400000] Examples.start) 0%nat).
  vm_compute. lia.
Defined.

(** ** The list of all mods *)

(** X8. When [getAvailableMods] asks the registry and gets a list, it
    returns the registry's mods in the registry's order (same identifiers,
    date members turned into dates, each with its versions in an array of
    its own), followed, when the overlay is enabled, by all overlay mods in
    overlay order. Nothing is removed or merged when an overlay mod has the
    identifier of a live mod. *)
Theorem getAvailableMods_appends_overlay (w : World) (mods : list WireMod) :
  cooldownPassed "getAvailableMods" w = true ->
  outcome (remote w (sent w) _ QueryMods) = Data mods ->
  exists live w1,
    getAvailableMods w
    = (Ok (VMods (live ++ (if useTempMods w then tempMods w else []))), w1) /\
    map id live = map id mods /\
    map last_version_date live = map (fun m => toDate (last_version_date m)) mods /\
    Forall2 (fun m wire => versionsAt (versions m) w1 = versions wire) live mods.
Proof.
  intros Hpassed Hreply.
  unfold getAvailableMods. run. rewrite Hpassed. unfold fiscitApiQuery.
  rewrite Hreply. simpl.
  match goal with |- context [parseMods mods ?w0] =>
    pose proof (parseMods_fst mods w0) as Hfst;
    pose proof (parseMods_frame mods w0) as (_ & Hu & Ht & _);
    pose proof (parseMods_store mods w0) as (_ & _ & Hstore)
  end.
  destruct (parseMods mods _) as [[res|e] w2]; simpl in *; [|discriminate].
  injection Hfst as ->. rewrite Hu, Ht.
  exists (map (fun m => with_last_version_date (toDate (last_version_date m)) m)
            (parsedFrom (nextLoc w) mods)).
  eexists. split.
  - unfold getCache, setCache. simpl. rewrite lookup_insert_eq. simpl.
    assert (Hif : forall (b : bool) (l t : list FicsitAppMod),
               (if b then l ++ t else l) = l ++ (if b then t else []))
      by (intros [] l t; [reflexivity | now rewrite app_nil_r]).
    rewrite Hif. reflexivity.
  - destruct (parsedFrom_ids (nextLoc w) mods) as [Hids Hdates].
    split; [exact Hids|]. split; [exact Hdates|].
    simpl. clear -Hstore. unfold versionsAt.
    induction Hstore as [|m wire ms wires Hm _ IH]; simpl; constructor; [|exact IH].
    simpl. now rewrite Hm.
Qed.

Lemma getAvailableMods_appends_overlay_witness :
  exists live w1,
    getAvailableMods
      (execAll [CSetUseTempMods true; CNewVersions []; CAddTempMod Examples.modA]
         Examples.start)
    = (Ok (VMods (live ++ [Examples.modA])), w1) /\
    map id live = ["modB"] /\
    map last_version_date live = [DateObject "2020-05-01T10:00:00Z"] /\
    Forall2 (fun m wire => versionsAt (versions m) w1 = versions wire) live
      [Examples.modOf "modB" [Examples.releaseOf "modB" "1.0.0"]].
Proof.
  apply (getAvailableMods_appends_overlay
           (execAll [CSetUseTempMods true; CNewVersions []; CAddTempMod Examples.modA]
              Examples.start)
           [Examples.modOf "modB" [Examples.releaseOf "modB" "1.0.0"]]);
    reflexivity.
Defined.

(** ** Latest versions: the edges *)

Section LatestEdges.
Context `{Semver} `{Handlers}.

Lemma filter_nothing {A} (p : A -> bool) (l : list A) :
  Forall (fun x => p x = false) l -> List.filter p l = [].
Proof.
  induction 1 as [|x l Hx _ IH]; simpl; [reflexivity|]. now rewrite Hx.
Qed.

(** X9. Asked for the latest of nothing, the three latest-version functions
    return [undefined] and do not throw: [getModLatestVersion] on a mod
    with an empty version list, [getLatestSMLVersion] when no loader
    version of the registry passes the floor [>=2.0.0], and
    [getLatestBootstrapperVersion] on an empty list. *)
Theorem latest_of_nothing_is_undefined :
  (forall modID w l w1,
      getModVersions modID w = (Ok (VVersions l), w1) ->
      versionsAt l w1 = [] ->
      fst (getModLatestVersion modID w) = Ok None) /\
  (forall w vs,
      cooldownPassed "getSMLVersions" w = true ->
      outcome (remote w (sent w) _ QuerySMLVersions) = Data vs ->
      Forall (fun v => satisfies (sml_release v) ">=2.0.0" = false) vs ->
      fst (getLatestSMLVersion w) = Ok None) /\
  (forall w,
      cooldownPassed "getBootstrapperVersions" w = true ->
      outcome (remote w (sent w) _ QueryBootstrapVersions) = Data [] ->
      fst (getLatestBootstrapperVersion w) = Ok None).
Proof.
  split; [|split].
  - intros modID w l w1 Hvs Hempty.
    rewrite (getModLatestVersion_run _ _ _ _ Hvs), Hempty. reflexivity.
  - intros w vs Hpassed Hreply Hbelow.
    unfold getLatestSMLVersion, getAvailableSMLVersions. run.
    rewrite Hpassed. unfold fiscitApiQuery. rewrite Hreply. simpl.
    rewrite (filter_nothing _ vs Hbelow). simpl.
    unfold getCache, setCache. simpl. rewrite lookup_insert_eq. simpl.
    unfold smlVersionsAt, sortSMLVersionsAt, smlVersionsAt. simpl.
    rewrite !lookup_insert_eq. reflexivity.
  - intros w Hpassed Hreply.
    unfold getLatestBootstrapperVersion, getAvailableBootstrapperVersions. run.
    rewrite Hpassed. unfold fiscitApiQuery. rewrite Hreply. simpl.
    unfold getCache, setCache. simpl. rewrite lookup_insert_eq. simpl.
    unfold bootstrapperVersionsAt, sortBootstrapperVersionsAt, bootstrapperVersionsAt.
    simpl. rewrite !lookup_insert_eq. reflexivity.
Qed.

(** X10. When the registry reports no mod and the enabled overlay supplies
    the version list, [getModLatestVersion] sorts the overlay mod's own
    array: the query leaves the overlay's version list reordered, newest
    first, while the set of overlay mods and the cache stay as they were. *)
Theorem getModLatestVersion_reorders_overlay
    (modID : string) (w : World) (tempMod : FicsitAppMod) :
  cooldownPassed (requestID (AModVersions modID)) w = true ->
  outcome (remote w (sent w) _ (QueryModVersions modID)) = Data None ->
  useTempMods w = true ->
  findTempMod modID w = Some tempMod ->
  fst (getModLatestVersion modID w)
  = Ok (head (sort (newestFirst version) (versionsAt (versions tempMod) w))) /\
  versionsAt (versions tempMod) (snd (getModLatestVersion modID w))
  = sort (newestFirst version) (versionsAt (versions tempMod) w) /\
  tempMods (snd (getModLatestVersion modID w)) = tempMods w /\
  cachedFetch (snd (getModLatestVersion modID w)) = cachedFetch w.
Proof.
  intros Hpassed Hreply Hon Hfind. simpl in Hpassed.
  assert (Hvs : getModVersions modID w
                = (Ok (VVersions (versions tempMod)),
                   set_now (now w + elapsed (remote w (sent w) _ (QueryModVersions modID)))
                     (set_sent (S (sent w)) w))).
  { unfold getModVersions. run. rewrite Hpassed. unfold fiscitApiQuery.
    rewrite Hreply. simpl. rewrite Hon.
    change (findTempMod modID _) with (findTempMod modID w). now rewrite Hfind. }
  rewrite (getModLatestVersion_run _ _ _ _ Hvs). simpl.
  split; [reflexivity|]. split; [|now split].
  now rewrite versionsAt_sortVersionsAt.
Qed.

End LatestEdges.

Lemma latest_of_nothing_is_undefined_witness :
  fst (getLatestSMLVersion (init Examples.outdated 0)) = Ok None.
Proof.
  destruct latest_of_nothing_is_undefined as (_ & Hsml & _).
  apply (Hsml (init Examples.outdated 0) [Examples.smlOf "1.9.0"; Examples.smlOf "1.6.1"]).
  - reflexivity.
  - reflexivity.
  - repeat constructor.
Defined.

Lemma getModLatestVersion_reorders_overlay_witness :
  let w := execAll [CSetUseTempMods true;
                    CNewVersions [Examples.releaseOf "modA" "0.1.0";
                                  Examples.releaseOf "modA" "0.3.0";
                                  Examples.releaseOf "modA" "0.2.0"];
                    CAddTempMod Examples.modA] Examples.start in
  map version (versionsAt 0%nat w) = ["0.1.0"; "0.3.0"; "0.2.0"] /\
  map version (versionsAt 0%nat (snd (getModLatestVersion "modA" w)))
  = ["0.3.0"; "0.2.0"; "0.1.0"].
Proof.
  cbv zeta. split; [reflexivity|].
  destruct (getModLatestVersion_reorders_overlay "modA"
              (execAll [CSetUseTempMods true;
                        CNewVersions [Examples.releaseOf "modA" "0.1.0";
                                      Examples.releaseOf "modA" "0.3.0";
                                      Examples.releaseOf "modA" "0.2.0"];
                        CAddTempMod Examples.modA] Examples.start)
              Examples.modA) as (_ & Harr & _);
    [reflexivity | reflexivity | reflexivity | reflexivity |].
  change (versions Examples.modA) with 0%nat in Harr. rewrite Harr. reflexivity.
Defined.

(** ** The array a latest-version call leaves behind *)

Lemma StronglySorted_weaken {A} (R R' : A -> A -> Prop) (l : list A) :
  (forall a b, R a b -> R' a b) -> StronglySorted R l -> StronglySorted R' l.
Proof.
  intros Hsub. induction 1 as [|x l Hl IH Hx]; constructor; [exact IH|].
  rewrite List.Forall_forall in *. auto.
Qed.

Lemma sort_sorted_id {A} (comparefn : A -> A -> Z) (l : list A) :
  StronglySorted (before comparefn) l -> sort comparefn l = l.
Proof.
  induction 1 as [|x l Hl IH Hx]; simpl; [reflexivity|].
  fold (sort comparefn l). rewrite IH.
  destruct l as [|y l']; simpl; [reflexivity|].
  inversion Hx as [|? ? Hxy _]; subst. unfold before in Hxy.
  destruct (0 <? comparefn x y) eqn:E; [|reflexivity].
  apply Z.ltb_lt in E. lia.
Qed.

Section AfterLatest.
Context `{SemverOrder}.

(** X11. After [getModLatestVersion] the array the accessor returned holds
    the same records as before, each as often as before, arranged so that
    no record comes before one of higher semantic-version precedence. *)
Theorem getModLatestVersion_leaves_sorted_permutation
    (modID : string) (w w1 : World) (l : loc) :
  getModVersions modID w = (Ok (VVersions l), w1) ->
  Permutation (versionsAt l (snd (getModLatestVersion modID w))) (versionsAt l w1) /\
  StronglySorted (fun a b => 0 <= compare (version a) (version b))
    (versionsAt l (snd (getModLatestVersion modID w))).
Proof.
  intros Hvs. rewrite (getModLatestVersion_run _ _ _ _ Hvs). simpl.
  rewrite versionsAt_sortVersionsAt. split; [apply sort_Permutation|].
  apply (StronglySorted_weaken (before (newestFirst version))).
  - intros a b Hab. unfold before, newestFirst in Hab. lia.
  - apply sort_sorted; [apply newestFirst_total | apply newestFirst_trans].
Qed.

(** X12. A second [getModLatestVersion] that hits the cache returns the
    record the first one returned and leaves the array as the first one
    left it: sorting the cached array in place is harmless when repeated. *)
Theorem getModLatestVersion_twice (modID : string) (w w1 : World) (l : loc) :
  getModVersions modID w = (Ok (VVersions l), w1) ->
  getCache (requestID (AModVersions modID)) w1 = VVersions l ->
  cooldownPassed (requestID (AModVersions modID))
    (snd (getModLatestVersion modID w)) = false ->
  fst (getModLatestVersion modID (snd (getModLatestVersion modID w)))
  = fst (getModLatestVersion modID w) /\
  versionsAt l (snd (getModLatestVersion modID (snd (getModLatestVersion modID w))))
  = versionsAt l (snd (getModLatestVersion modID w)).
Proof.
  intros Hvs Hcached. rewrite (getModLatestVersion_run _ _ _ _ Hvs). simpl.
  intros Hhit.
  assert (Hagain : getModVersions modID (sortVersionsAt l w1)
                   = (Ok (VVersions l), sortVersionsAt l w1)).
  { change (getModVersions modID) with (access (AModVersions modID)).
    rewrite (access_hit (AModVersions modID) _ Hhit). f_equal. f_equal. exact Hcached. }
  rewrite (getModLatestVersion_run _ _ _ _ Hagain). simpl.
  rewrite !versionsAt_sortVersionsAt.
  assert (Hid : sort (newestFirst version) (sort (newestFirst version) (versionsAt l w1))
                = sort (newestFirst version) (versionsAt l w1)).
  { apply sort_sorted_id.
    apply sort_sorted; [apply newestFirst_total | apply newestFirst_trans]. }
  now rewrite Hid.
Qed.

End AfterLatest.

Lemma getModLatestVersion_leaves_sorted_permutation_witness :
  Permutation
    (versionsAt 0%nat (snd (getModLatestVersion "modB" Examples.start)))
    (versionsAt 0%nat (snd (getModVersions "modB" Examples.start))) /\
  StronglySorted (fun a b => 0 <= compare (version a) (version b))
    (versionsAt 0%nat (snd (getModLatestVersion "modB" Examples.start))).
Proof.
  apply (getModLatestVersion_leaves_sorted_permutation "modB" Examples.start
           (snd (getModVersions "modB" Examples.start)) 0%nat).
  reflexivity.
Defined.

Lemma getModLatestVersion_twice_witness :
  fst (getModLatestVersion "modB" (snd (getModLatestVersion "modB" Examples.start)))
  = fst (getModLatestVersion "modB" Examples.start) /\
  versionsAt 0%nat
    (snd (getModLatestVersion "modB" (snd (getModLatestVersion "modB" Examples.start))))
  = versionsAt 0%nat (snd (getModLatestVersion "modB" Examples.start)).
Proof.
  apply (getModLatestVersion_twice "modB" Examples.start
           (snd (getModVersions "modB" Examples.start)) 0%nat); reflexivity.
Defined.

(** ** Looking up one loader or bootstrapper version *)

Section VersionInfo.
Context `{Semver} `{Handlers}.

(** X13. [getSMLVersionInfo] and [getBootstrapperVersionInfo] look a
    version up by its exact string: what they return carries that very
    string. In a world a program reaches, a loader version that does not
    pass the floor [>=2.0.0] is never found, whatever the registry lists:
    the answer is [undefined]. *)
Theorem version_info_by_exact_string (w : World) (ver : string) :
  reachable w ->
  (forall r w1, getSMLVersionInfo ver w = (Ok (Some r), w1) -> sml_release r = ver) /\
  (forall r w1, getBootstrapperVersionInfo ver w = (Ok (Some r), w1) ->
                bs_release r = ver) /\
  (satisfies ver ">=2.0.0" = false ->
   forall r w1, getSMLVersionInfo ver w = (Ok r, w1) -> r = None).
Proof.
  intros Hreach.
  assert (Hsml : forall r w1, getSMLVersionInfo ver w = (Ok (Some r), w1) ->
                   sml_release r = ver /\ smlFloor r = true).
  { intros r w1. unfold getSMLVersionInfo, bind.
    pose proof (reachable_invariant w Hreach) as Hinv.
    destruct (getAvailableSMLVersions_invariant w Hinv) as [[Hf _] _].
    destruct (getAvailableSMLVersions w) as [[v|e] w0]; [|discriminate].
    destruct v; try discriminate. run. intros E. injection E as E <-.
    apply find_some in E as [Hin E]. apply String.eqb_eq in E. split; [exact E|].
    pose proof (smlVersionsAt_floor w0 l Hf) as Hall.
    rewrite List.Forall_forall in Hall. now apply Hall. }
  split; [intros r w1 E; now apply (Hsml r w1)|]. split.
  - intros r w1. unfold getBootstrapperVersionInfo, bind.
    destruct (getAvailableBootstrapperVersions w) as [[v|e] w0]; [|discriminate].
    destruct v; try discriminate. run. intros E. injection E as E _.
    apply find_some in E as [_ E]. now apply String.eqb_eq in E.
  - intros Hbelow [r|] w1 E; [|reflexivity].
    destruct (Hsml r w1 E) as [Hver Hfloor]. unfold smlFloor in Hfloor.
    rewrite Hver in Hfloor. congruence.
Qed.

End VersionInfo.

Lemma version_info_by_exact_string_witness :
  fst (getSMLVersionInfo "1.9.0" Examples.start) = Ok None /\
  fst (getSMLVersionInfo "2.2.0" Examples.start)
  = Ok (Some (with_sml_date (DateObject "2020-05-01T10:00:00Z") (Examples.smlOf "2.2.0"))).
Proof.
  assert (Hreach : reachable Examples.start)
    by (exists Examples.registry, 0, []; reflexivity).
  destruct (version_info_by_exact_string Examples.start "1.9.0" Hreach) as (_ & _ & Hnone).
  split; [|reflexivity].
  destruct (getSMLVersionInfo "1.9.0" Examples.start) as [[r|e] w1] eqn:E.
  - simpl. f_equal. apply (Hnone eq_refl r w1 eq_refl).
  - vm_compute in E. discriminate E.
Defined.

(** ** Cache keys *)

Lemma append_underscore_inj (m m' v v' : string) :
  noUnderscore m = true -> noUnderscore m' = true ->
  m +:+ "_" +:+ v = m' +:+ "_" +:+ v' -> m = m' /\ v = v'.
Proof.
  revert m'. induction m as [|c m IH]; intros [|c' m']; simpl; intros Hm Hm' E.
  - injection E as E. now subst.
  - injection E as Ec _. subst c'. discriminate Hm'.
  - injection E as Ec _. subst c. discriminate Hm.
  - injection E as Ec E. subst c'.
    apply andb_true_iff in Hm as [_ Hm]. apply andb_true_iff in Hm' as [_ Hm'].
    destruct (IH m' Hm Hm' E) as [Em Ev]. now subst.
Qed.

(** X14. Two requests have the same cache key only when they are the same
    request, as long as the mod identifiers of download-link requests
    contain no underscore: under that condition no two different requests
    ever share a cache entry. *)
Theorem requestID_injective (a a' : Accessor) :
  plainModID a = true -> plainModID a' = true ->
  requestID a = requestID a' -> a = a'.
Proof.
  destruct a, a'; simpl; intros Ha Ha' E; try discriminate E; try reflexivity.
  - apply (append_inj_l "getModDownloadLink_") in E.
    destruct (append_underscore_inj _ _ _ _ Ha Ha' E) as [Em Ev]. now subst.
  - apply (append_inj_l "getMod_") in E. now subst.
  - apply (append_inj_l "getModVersions_") in E. now subst.
Qed.

Lemma requestID_injective_witness :
  AModDownloadLink "modB" "1.0.0" = AModDownloadLink "modB" "1.0.0".
Proof.
  apply (requestID_injective (AModDownloadLink "modB" "1.0.0")
           (AModDownloadLink "modB" "1.0.0")); reflexivity.
Defined.

(** X15. The key of a download link is the plain concatenation
    [modID_version]. Two pairs whose concatenations coincide share one
    entry: once the link of the first pair has been fetched, a request for
    the second pair within the cooldown is answered with the first pair's
    link, and the registry is not asked. *)
Theorem download_link_keys_collide (modID ver modID' ver' link : string) (w : World) :
  modID +:+ "_" +:+ ver = modID' +:+ "_" +:+ ver' ->
  cooldownPassed (requestID (AModDownloadLink modID ver)) w = true ->
  outcome (remote w (sent w) _ (QueryModDownloadLink modID ver))
  = Data (Some (Some link)) ->
  forall t, t - now (snd (getModDownloadLink modID ver w)) <= fetchCooldown ->
    getModDownloadLink modID' ver' (set_now t (snd (getModDownloadLink modID ver w)))
    = (Ok (VString (API_URL +:+ link)),
       set_now t (snd (getModDownloadLink modID ver w))).
Proof.
  intros Hkey Hpassed Hreply t Hage.
  assert (Hkeys : requestID (AModDownloadLink modID' ver')
                  = requestID (AModDownloadLink modID ver))
    by (simpl; now rewrite Hkey).
  assert (Hrun : getModDownloadLink modID ver w
                 = (Ok (VString (API_URL +:+ link)),
                    setCache (requestID (AModDownloadLink modID ver))
                      (VString (API_URL +:+ link))
                      (set_now (now w + elapsed (remote w (sent w) _
                                                   (QueryModDownloadLink modID ver)))
                         (set_sent (S (sent w)) w)))).
  { simpl in Hpassed. unfold getModDownloadLink. run. rewrite Hpassed.
    unfold fiscitApiQuery. rewrite Hreply. simpl.
    unfold getCache, setCache. simpl. now rewrite lookup_insert_eq. }
  rewrite Hrun in *. simpl snd in *.
  change (getModDownloadLink modID' ver') with (access (AModDownloadLink modID' ver')).
  apply (entry_served (AModDownloadLink modID' ver') _
           (now w + elapsed (remote w (sent w) _ (QueryModDownloadLink modID ver)))).
  - rewrite Hkeys. unfold setCache. simpl. now rewrite lookup_insert_eq.
  - exact Hage.
Qed.

Lemma download_link_keys_collide_witness :
  getModDownloadLink "mod" "B_1.0.0"
    (set_now 1000 (snd (getModDownloadLink "mod_B" "1.0.0" (init Examples.underscored 0))))
  = (Ok (VString "https://api.ficsit.app/files/mod_B.zip"),
     set_now 1000 (snd (getModDownloadLink "mod_B" "1.0.0" (init Examples.underscored 0)))).
Proof.
  apply (download_link_keys_collide "mod_B" "1.0.0" "mod" "B_1.0.0" "/files/mod_B.zip"
           (init Examples.underscored 0)).
  - reflexivity.
  - reflexivity.
  - reflexivity.
  - vm_compute. discriminate.
Defined.

(** ** The overlay seen through the queries *)

Section OverlayQueries.
Context `{Semver} `{Handlers}.

(** X16. A version added with [addTempModVersion] goes at the end of the
    array of the first overlay mod with that identifier, and the overlay
    fallback of [getModVersions] hands out that very array: a caller that
    asks for the versions of the mod afterwards sees the old versions
    followed by the new one. *)
Theorem added_version_is_served (v : FicsitAppVersion) (w : World) (tempMod : FicsitAppMod) :
  useTempMods w = true ->
  findTempMod (mod_id v) w = Some tempMod ->
  cooldownPassed (requestID (AModVersions (mod_id v))) w = true ->
  outcome (remote w (sent w) _ (QueryModVersions (mod_id v))) = Data None ->
  exists w1,
    getModVersions (mod_id v) (addTempModVersion v w)
    = (Ok (VVersions (versions tempMod)), w1) /\
    versionsAt (versions tempMod) w1 = versionsAt (versions tempMod) w ++ [v] /\
    tempMods w1 = tempMods w.
Proof.
  intros Hon Hfind Hpassed Hreply. simpl in Hpassed.
  unfold addTempModVersion. rewrite Hon. fold (findTempMod (mod_id v) w). rewrite Hfind.
  unfold getModVersions. run.
  change (cooldownPassed ("getModVersions_" +:+ mod_id v) (set_versionArrays _ w))
    with (cooldownPassed ("getModVersions_" +:+ mod_id v) w).
  rewrite Hpassed. unfold fiscitApiQuery. simpl. rewrite Hreply. simpl. rewrite Hon.
  change (findTempMod (mod_id v) _) with (findTempMod (mod_id v) w). rewrite Hfind.
  eexists. split; [reflexivity|]. split; [|reflexivity].
  unfold versionsAt at 1. simpl. now rewrite lookup_insert_eq.
Qed.

(** X17. The overlay is searched from the front: when it already holds a
    mod with an identifier, adding another mod with that identifier does
    not change what the fallback of [getMod] returns, which stays the mod
    added first. *)
Theorem first_overlay_mod_wins (modID : string) (w : World) (first later : FicsitAppMod) :
  useTempMods w = true ->
  findTempMod modID w = Some first ->
  cooldownPassed (requestID (AMod modID)) w = true ->
  outcome (remote w (sent w) _ (QueryMod modID)) = Data None ->
  In later (tempMods (addTempMod later w)) /\
  fst (getMod modID (addTempMod later w)) = Ok (VMod first).
Proof.
  intros Hon Hfind Hpassed Hreply. simpl in Hpassed.
  unfold addTempMod. rewrite Hon. split.
  - simpl. apply in_or_app. right. now left.
  - unfold getMod. run.
    change (cooldownPassed ("getMod_" +:+ modID) (set_tempMods _ w))
      with (cooldownPassed ("getMod_" +:+ modID) w).
    rewrite Hpassed. unfold fiscitApiQuery. simpl. rewrite Hreply. simpl. rewrite Hon.
    unfold findTempMod in *. simpl.
    assert (Hfront : forall (p : FicsitAppMod -> bool) l l' x,
               List.find p l = Some x -> List.find p (l ++ l') = Some x).
    { intros p l l' x. induction l as [|y l IH]; simpl; [discriminate|].
      destruct (p y); auto. }
    now rewrite (Hfront _ _ _ _ Hfind).
Qed.

(** X18. The bootstrapper has no floor. When [findAllVersionsMatchingAll]
    is asked for the bootstrapper's identifier and the list is fetched, it
    returns every version string the registry listed that satisfies all
    the constraints, in the registry's order, however old. *)
Theorem bootstrapper_versions_unfiltered
    (modID : string) (cs : list string) (w : World)
    (vs : list FicsitAppBootstrapperVersion) :
  modID <> SMLModID -> modID = BootstrapperModID ->
  cooldownPassed "getBootstrapperVersions" w = true ->
  outcome (remote w (sent w) _ QueryBootstrapVersions) = Data vs ->
  fst (findAllVersionsMatchingAll modID cs w)
  = Ok (List.filter (fun s => versionSatisfiesAll s cs) (map bs_release vs)).
Proof.
  intros Hsml Hbs Hpassed Hreply.
  unfold findAllVersionsMatchingAll.
  apply String.eqb_neq in Hsml. rewrite Hsml.
  apply String.eqb_eq in Hbs. rewrite Hbs.
  unfold getAvailableBootstrapperVersions. run. rewrite Hpassed.
  unfold fiscitApiQuery. rewrite Hreply. simpl.
  unfold getCache, setCache. simpl. rewrite lookup_insert_eq. simpl.
  unfold bootstrapperVersionsAt. simpl. rewrite lookup_insert_eq. simpl.
  f_equal. clear. induction vs as [|x vs IH]; simpl; [reflexivity|].
  destruct (versionSatisfiesAll (bs_release x) cs); simpl; now rewrite IH.
Qed.

End OverlayQueries.

Lemma added_version_is_served_witness :
  let w := execAll [CSetUseTempMods true;
                    CNewVersions [Examples.releaseOf "modA" "0.1.0"];
                    CAddTempMod Examples.modA] Examples.start in
  exists w1,
    getModVersions "modA" (addTempModVersion (Examples.releaseOf "modA" "0.2.0") w)
    = (Ok (VVersions 0%nat), w1) /\
    versionsAt 0%nat w1
    = versionsAt 0%nat w ++ [Examples.releaseOf "modA" "0.2.0"] /\
    tempMods w1 = tempMods w.
Proof.
  cbv zeta.
  apply (added_version_is_served (Examples.releaseOf "modA" "0.2.0")
           (execAll [CSetUseTempMods true;
                     CNewVersions [Examples.releaseOf "modA" "0.1.0"];
                     CAddTempMod Examples.modA] Examples.start)
           Examples.modA); reflexivity.
Defined.

Lemma first_overlay_mod_wins_witness :
  let w := execAll [CSetUseTempMods true; CNewVersions []; CNewVersions [];
                    CAddTempMod Examples.modA] Examples.start in
  In (Examples.modOf "modA" 1%nat) (tempMods (addTempMod (Examples.modOf "modA" 1%nat) w)) /\
  fst (getMod "modA" (addTempMod (Examples.modOf "modA" 1%nat) w))
  = Ok (VMod Examples.modA).
Proof.
  cbv zeta.
  apply (first_overlay_mod_wins "modA"
           (execAll [CSetUseTempMods true; CNewVersions []; CNewVersions [];
                     CAddTempMod Examples.modA] Examples.start)
           Examples.modA (Examples.modOf "modA" 1%nat)); reflexivity.
Defined.

Lemma bootstrapper_versions_unfiltered_witness :
  fst (findAllVersionsMatchingAll "bootstrapper" ["<2.0.5"] Examples.start)
  = Ok ["2.0.0"].
Proof.
  rewrite (bootstrapper_versions_unfiltered "bootstrapper" ["<2.0.5"] Examples.start
             [Examples.bootstrapperOf "2.0.0"; Examples.bootstrapperOf "2.0.11"]);
    [reflexivity | discriminate | reflexivity | reflexivity | reflexivity].
Defined.

(** ** Failures *)

Section Failures.
Context `{Semver} `{Handlers}.

(** Once its accessor has returned a payload of the kind of its key, a call
    does not throw. *)
Lemma call_ok_returns (c : Call) (a : Accessor) (w w1 : World) (v : Value) :
  accessorOf c = Some a ->
  access a w = (Ok v, w1) ->
  payloadKind a v ->
  thrownBy c w = None.
Proof.
  destruct c; simpl; intros E Hacc Hkind; try discriminate E; injection E as <-.
  - now rewrite Hacc.
  - simpl in Hacc. unfold getModLatestVersion, bind. rewrite Hacc.
    destruct v; simpl in Hkind; try contradiction. reflexivity.
  - simpl in Hacc. unfold findVersionMatchingAll, bind. rewrite Hacc.
    destruct v; simpl in Hkind; try contradiction. run.
    now destruct (fold_left _ _ _).
  - simpl in Hacc. unfold getSMLVersionInfo, bind. rewrite Hacc.
    destruct v; simpl in Hkind; try contradiction. reflexivity.
  - simpl in Hacc. unfold getLatestSMLVersion, bind. rewrite Hacc.
    destruct v; simpl in Hkind; try contradiction. reflexivity.
  - simpl in Hacc. unfold getBootstrapperVersionInfo, bind. rewrite Hacc.
    destruct v; simpl in Hkind; try contradiction. reflexivity.
  - simpl in Hacc. unfold getLatestBootstrapperVersion, bind. rewrite Hacc.
    destruct v; simpl in Hkind; try contradiction. reflexivity.
  - unfold findAllVersionsMatchingAll.
    destruct (String.eqb modID SMLModID); [|destruct (String.eqb modID BootstrapperModID)];
      simpl in Hacc; unfold bind; rewrite Hacc;
      destruct v; simpl in Hkind; try contradiction; reflexivity.
Qed.

(** An accessor that throws has asked the registry and written nothing. *)
Lemma access_throw_frame (a : Accessor) (w w1 : World) (e : Exn) :
  access a w = (Throw e, w1) ->
  sameButClock w w1 /\ sent w1 = S (sent w) /\
  cooldownPassed (requestID a) w = true.
Proof.
  destruct (cooldownPassed (requestID a) w) eqn:Hpassed.
  2:{ rewrite (access_hit a w Hpassed). discriminate. }
  destruct a; simpl in *;
    [unfold getModDownloadLink | unfold getAvailableMods | unfold getMod
    | unfold getModVersions | unfold getAvailableSMLVersions
    | unfold getAvailableBootstrapperVersions];
    run; rewrite Hpassed; unfold fiscitApiQuery;
    match goal with |- context [outcome ?r] => destruct (outcome r) as [| | | |d] end;
    simpl; intros E; try discriminate E;
    try (injection E as _ <-; repeat split).
  - destruct d as [[link|]|]; simpl in E; try discriminate E;
      match type of E with context [hasTempMod ?i ?w'] => destruct (hasTempMod i w') end;
      injection E as _ <-; repeat split.
  - match type of E with context [parseMods d ?w0] =>
      pose proof (parseMods_frame d w0) as ([res Hres] & _)
    end.
    destruct (parseMods d _) as [[ms|e'] w2]; simpl in *; discriminate.
  - destruct d as [resGetMod|]; simpl in E; try discriminate E.
    match type of E with context [findTempMod ?i ?w'] => destruct (findTempMod i w') end;
      destruct (useTempMods w); try discriminate E; injection E as _ <-; repeat split.
  - destruct d as [vs|]; simpl in E; try discriminate E.
    match type of E with context [findTempMod ?i ?w'] => destruct (findTempMod i w') end;
      destruct (useTempMods w); try discriminate E; injection E as _ <-; repeat split.
Qed.

(** X19. Where every cache entry holds a payload of the kind of its key
    (as in every world a program reaches, [reachable_typed]), an operation
    built on an accessor that does not sort (an accessor itself, a
    version-info lookup, a constraint search) adds no failure of its own:
    it throws exactly when its accessor throws, and then the same
    exception. The searching and filtering steps never throw. *)
Theorem failures_come_from_the_accessor (c : Call) (a : Accessor) (w : World) :
  cacheTyped w ->
  sortsInPlace c = false ->
  accessorOf c = Some a ->
  thrownBy c w = thrown (fst (access a w)).
Proof.
  intros Htyped _ Hc.
  destruct (access a w) as [[v|e] w1] eqn:Hacc; simpl.
  - apply (call_ok_returns c a w w1 v Hc Hacc).
    now apply (proj2 (access_typed a w Htyped) v w1).
  - now destruct (call_throw c a w w1 e Hc Hacc).
Qed.

(** X20. Under the same condition on the cache, a call that does not sort
    and that throws has issued one request and changed nothing else: the
    cache, the overlay, the arrays and the warnings are as they were
    before the call. A failed refresh in particular leaves the stale
    entry in place. *)
Theorem failed_call_changes_nothing (c : Call) (w : World) (e : Exn) :
  cacheTyped w ->
  sortsInPlace c = false ->
  thrownBy c w = Some e ->
  sameButClock w (exec c w) /\ sent (exec c w) = S (sent w).
Proof.
  intros Htyped _ Hthrown.
  destruct (accessorOf c) as [a|] eqn:Hc.
  2:{ destruct c; simpl in Hc, Hthrown; discriminate. }
  destruct (access a w) as [[v|e'] w1] eqn:Hacc.
  - rewrite (call_ok_returns c a w w1 v Hc Hacc) in Hthrown; [discriminate|].
    now apply (proj2 (access_typed a w Htyped) v w1).
  - destruct (call_throw c a w w1 e' Hc Hacc) as [_ ->].
    destruct (access_throw_frame a w w1 e' Hacc) as (Hframe & Hsent & _). now split.
Qed.

End Failures.

Lemma failures_come_from_the_accessor_witness :
  thrownBy (CFindVersionMatchingAll "modA" []) Examples.start
  = Some (ModNotFoundError "Mod modA not found").
Proof.
  rewrite (failures_come_from_the_accessor (CFindVersionMatchingAll "modA" [])
             (AMod "modA") Examples.start).
  - reflexivity.
  - apply reachable_typed. exists Examples.registry, 0, []. reflexivity.
  - reflexivity.
  - reflexivity.
Defined.

Lemma failed_call_changes_nothing_witness :
  let w := execAll [CGetLatestSMLVersion; CClock 400000] (init Examples.flaky 0) in
  is_Some (cachedFetch w !! "getSMLVersions") /\
  thrownBy (CGetSMLVersionInfo "2.2.0") w
  = Some (Error "Network error. Please try again later.") /\
  sameButClock w (exec (CGetSMLVersionInfo "2.2.0") w) /\
  sent (exec (CGetSMLVersionInfo "2.2.0") w) = S (sent w).
Proof.
  cbv zeta. split; [vm_compute; eauto|]. split; [reflexivity|].
  apply (failed_call_changes_nothing (CGetSMLVersionInfo "2.2.0")
           (execAll [CGetLatestSMLVersion; CClock 400000] (init Examples.flaky 0))
           (Error "Network error. Please try again later.")).
  - apply reachable_typed.
    exists Examples.flaky, 0, [CGetLatestSMLVersion; CClock 400000]. reflexivity.
  - reflexivity.
  - reflexivity.
Defined.
